(** * Verification of the IR diff engine (webapp/ir_diff_tool.py)

    The development embeds the class [IRDiffTool] of
    [src/LLVMProj/webapp/ir_diff_tool.py] together with the part of Python's
    [difflib] that [generate_side_by_side_diff] calls, and states the
    properties of the parser, the structural differ, the line differ and the
    change analyzer over that embedding.

    Conventions.
    - A Python [str] is a Rocq [string]; a character is a code point below 256.
    - A Python [dict] is an association list in insertion order ([dict_set]
      overwrites in place or appends, as CPython does).
    - A Python exception is the [Raise] case of [result].
    - File names are replaced by the text that [f.read()] returns (decoded,
      line ends already translated to the newline character). *)

From Stdlib Require Import List String Ascii Bool Arith PeanoNat Lia.
From Stdlib Require Import DecimalString Decimal Sorted.
Import ListNotations.
Local Open Scope string_scope.
Local Open Scope list_scope.
Local Open Scope nat_scope.

(** ** Python values shared by all components *)

Module Py.

Inductive exn : Type :=
| IndexError.

Inductive result (A : Type) : Type :=
| Ok (a : A)
| Raise (e : exn).
Arguments Ok {A} a.
Arguments Raise {A} e.

Definition bind {A B : Type} (r : result A) (k : A -> result B) : result B :=
  match r with
  | Ok a => k a
  | Raise e => Raise e
  end.

(** [xs[i]] on a list: [IndexError] when [i] is out of range. *)
Definition index {A : Type} (xs : list A) (i : nat) : result A :=
  match nth_error xs i with
  | Some x => Ok x
  | None => Raise IndexError
  end.

(** Truth value of a list: non-empty. *)
Definition truthy_list {A : Type} (xs : list A) : bool :=
  match xs with
  | [] => false
  | _ :: _ => true
  end.

(** Truth value of an optional string ([None] and [''] are false). *)
Definition truthy_opt_str (o : option string) : bool :=
  match o with
  | None => false
  | Some s => negb (String.eqb s "")
  end.

(** *** str methods *)

Definition nl : ascii := "010"%char.
Definition nl_str : string := String nl EmptyString.

(** [s.startswith(p)] *)
Fixpoint startswith (s p : string) : bool :=
  match p with
  | EmptyString => true
  | String a p' =>
      match s with
      | EmptyString => false
      | String c s' => Ascii.eqb c a && startswith s' p'
      end
  end.

(** [s.split(sep)] for a separator of one character. *)
Fixpoint split (sep : ascii) (s : string) : list string :=
  match s with
  | EmptyString => [EmptyString]
  | String c s' =>
      if Ascii.eqb c sep then EmptyString :: split sep s'
      else match split sep s' with
           | h :: t => String c h :: t
           | [] => [String c EmptyString]
           end
  end.

(** [f.readlines()]: the lines of a text, each with its newline kept. *)
Fixpoint readlines (s : string) : list string :=
  match s with
  | EmptyString => []
  | String c s' =>
      if Ascii.eqb c nl then String c EmptyString :: readlines s'
      else match readlines s' with
           | h :: t => String c h :: t
           | [] => [String c EmptyString]
           end
  end.

(** [c.isspace()] on code points below 256. *)
Definition isspace (c : ascii) : bool :=
  let n := nat_of_ascii c in
  (((9 <=? n) && (n <=? 13)) || ((28 <=? n) && (n <=? 32))
   || (n =? 133) || (n =? 160))%nat.

Fixpoint lstrip (s : string) : string :=
  match s with
  | EmptyString => EmptyString
  | String c s' => if isspace c then lstrip s' else s
  end.

Fixpoint rstrip (s : string) : string :=
  match s with
  | EmptyString => EmptyString
  | String c s' =>
      match rstrip s' with
      | EmptyString => if isspace c then EmptyString else String c EmptyString
      | r => String c r
      end
  end.

Definition strip (s : string) : string := rstrip (lstrip s).

(** [sep.join(xs)] *)
Fixpoint join (sep : string) (xs : list string) : string :=
  match xs with
  | [] => EmptyString
  | [x] => x
  | x :: rest => x ++ sep ++ join sep rest
  end.

(** [' ' * n] *)
Fixpoint spaces (n : nat) : string :=
  match n with
  | 0 => EmptyString
  | S n' => String " "%char (spaces n')
  end.

(** [f"{s:<{w}}"]: left-justified in a field of width [w]. *)
Definition ljust (s : string) (w : nat) : string :=
  s ++ spaces (w - String.length s).

(** [str(n)] / [f"{n}"] for a non-negative int. *)
Definition str_of_nat (n : nat) : string :=
  NilZero.string_of_uint (Nat.to_uint n).

(** [max(len(x) for x in xs) if xs else 0] *)
Definition max_len (xs : list string) : nat :=
  fold_right (fun x m => Nat.max (String.length x) m) 0 xs.

(** *** dict with insertion order *)

Section Dict.
Context {K V : Type} (eqb : K -> K -> bool).

Fixpoint dict_get (d : list (K * V)) (k : K) : option V :=
  match d with
  | [] => None
  | (k', v) :: rest => if eqb k' k then Some v else dict_get rest k
  end.

Definition dict_mem (d : list (K * V)) (k : K) : bool :=
  match dict_get d k with
  | Some _ => true
  | None => false
  end.

(** [d[k] = v] *)
Fixpoint dict_set (d : list (K * V)) (k : K) (v : V) : list (K * V) :=
  match d with
  | [] => [(k, v)]
  | (k', v') :: rest =>
      if eqb k' k then (k, v) :: rest else (k', v') :: dict_set rest k v
  end.

Definition dict_keys (d : list (K * V)) : list K := map fst d.
End Dict.

End Py.
Export Py.


(** ** The part of Python's difflib used by the tool

    [difflib.unified_diff] and the [SequenceMatcher] methods it calls, for
    [isjunk=None] and [autojunk=True] (the defaults [unified_diff] uses).
    Indices are natural numbers: every subtraction below is either guarded by
    a comparison in the Python text or sits under a [max] with a non-negative
    operand, so truncation at zero agrees with Python's integers. *)

Module Difflib.

Inductive tag : Type :=
| Replace
| Delete
| Insert
| Equal.

Definition tag_eqb (t u : tag) : bool :=
  match t, u with
  | Replace, Replace | Delete, Delete | Insert, Insert | Equal, Equal => true
  | _, _ => false
  end.

(** An opcode [(tag, i1, i2, j1, j2)]. *)
Record opcode : Type := mkOp {
  op_tag : tag;
  op_i1 : nat;
  op_i2 : nat;
  op_j1 : nat;
  op_j2 : nat
}.

(** [Match(a, b, size)] *)
Definition block : Type := (nat * nat * nat)%type.

(** A region [(alo, ahi, blo, bhi)] waiting in the queue. *)
Definition region : Type := (nat * nat * nat * nat)%type.

Section SequenceMatcher.

(** [self.a] and [self.b] *)
Variables a b : list string.

(** One round of the loop of [__chain_b]:
    [indices = b2j.setdefault(elt, []); indices.append(i)]. *)
Definition b2j_add (b2j : list (string * list nat)) (i : nat) (elt : string)
  : list (string * list nat) :=
  match dict_get String.eqb b2j elt with
  | Some indices => dict_set String.eqb b2j elt (indices ++ [i])
  | None => dict_set String.eqb b2j elt [i]
  end.

Fixpoint chain_loop (b2j : list (string * list nat)) (i : nat)
  (elts : list string) : list (string * list nat) :=
  match elts with
  | [] => b2j
  | elt :: rest => chain_loop (b2j_add b2j i elt) (S i) rest
  end.

(** [self.bpopular] as computed by [__chain_b] from the full [b2j]. *)
Definition popular_of (b2j : list (string * list nat)) : list string :=
  let n := List.length b in
  if 200 <=? n then
    let ntest := n / 100 + 1 in
    map fst (filter (fun kv => ntest <? List.length (snd kv)) b2j)
  else [].

(** [self.b2j] after [__chain_b]: the popular elements are deleted. *)
Definition b2j : list (string * list nat) :=
  let full := chain_loop [] 0 b in
  let popular := popular_of full in
  filter (fun kv => negb (existsb (String.eqb (fst kv)) popular)) full.

(** [self.bjunk]: empty, [isjunk] being [None]. *)
Definition bjunk : list string := [].

Definition isbjunk (x : string) : bool := existsb (String.eqb x) bjunk.

(** [j2len.get(j-1, 0)]; no key of [j2len] is negative. *)
Definition j2lenget_pred (j2len : list (nat * nat)) (j : nat) : nat :=
  match j with
  | 0 => 0
  | S j' => match dict_get Nat.eqb j2len j' with
            | Some k => k
            | None => 0
            end
  end.

(** The loop [for j in b2j.get(a[i], nothing)] of [find_longest_match],
    with its [continue] and [break]. *)
Fixpoint flm_inner (j2len : list (nat * nat)) (i blo bhi : nat)
  (js : list nat) (newj2len : list (nat * nat)) (best : block)
  : list (nat * nat) * block :=
  match js with
  | [] => (newj2len, best)
  | j :: js' =>
      if j <? blo then flm_inner j2len i blo bhi js' newj2len best
      else if bhi <=? j then (newj2len, best)
      else
        let k := j2lenget_pred j2len j + 1 in
        let newj2len' := dict_set Nat.eqb newj2len j k in
        let '(_, _, bestsize) := best in
        let best' := if bestsize <? k then (i + 1 - k, j + 1 - k, k)
                     else best in
        flm_inner j2len i blo bhi js' newj2len' best'
  end.

(** [b2j.get(a[i], nothing)]; [get_matching_blocks] only asks for rows
    inside [a] (see [find_longest_match_bounds]). *)
Definition b2j_get_at (i : nat) : list nat :=
  match nth_error a i with
  | Some x => match dict_get String.eqb b2j x with
              | Some js => js
              | None => []
              end
  | None => []
  end.

(** The loop [for i in range(alo, ahi)]. *)
Fixpoint flm_outer (blo bhi : nat) (rows : list nat)
  (j2len : list (nat * nat)) (best : block) : block :=
  match rows with
  | [] => best
  | i :: rows' =>
      let '(newj2len, best') :=
        flm_inner j2len i blo bhi (b2j_get_at i) [] best in
      flm_outer blo bhi rows' newj2len best'
  end.

(** [a[i] == b[j]] and the junk test on [b[j]], for indices in range. *)
Definition same_at (junk : bool) (i j : nat) : bool :=
  match nth_error a i, nth_error b j with
  | Some x, Some y => Bool.eqb (isbjunk y) junk && String.eqb x y
  | _, _ => false
  end.

(** The loops that extend the match to the left:
    [while besti > alo and bestj > blo and <junk test> and
           a[besti-1] == b[bestj-1]]. *)
Fixpoint extend_left (junk : bool) (alo blo besti bestj bestsize : nat)
  : block :=
  match besti with
  | 0 => (besti, bestj, bestsize)
  | S besti' =>
      if (alo <? besti) && (blo <? bestj)
         && same_at junk (besti - 1) (bestj - 1)
      then extend_left junk alo blo besti' (bestj - 1) (bestsize + 1)
      else (besti, bestj, bestsize)
  end.

(** The loops that extend the match to the right:
    [while besti+bestsize < ahi and bestj+bestsize < bhi and <junk test> and
           a[besti+bestsize] == b[bestj+bestsize]].
    [gap] counts the rounds left before [besti+bestsize] reaches [ahi]. *)
Fixpoint extend_right (junk : bool) (gap ahi bhi besti bestj bestsize : nat)
  : nat :=
  match gap with
  | 0 => bestsize
  | S gap' =>
      if (besti + bestsize <? ahi) && (bestj + bestsize <? bhi)
         && same_at junk (besti + bestsize) (bestj + bestsize)
      then extend_right junk gap' ahi bhi besti bestj (bestsize + 1)
      else bestsize
  end.

Definition find_longest_match (alo ahi blo bhi : nat) : block :=
  let best := flm_outer blo bhi (seq alo (ahi - alo)) [] (alo, blo, 0) in
  let '(besti, bestj, bestsize) := best in
  let '(besti, bestj, bestsize) :=
    extend_left false alo blo besti bestj bestsize in
  let bestsize :=
    extend_right false (ahi - (besti + bestsize)) ahi bhi besti bestj bestsize in
  let '(besti, bestj, bestsize) :=
    extend_left true alo blo besti bestj bestsize in
  let bestsize :=
    extend_right true (ahi - (besti + bestsize)) ahi bhi besti bestj bestsize in
  (besti, bestj, bestsize).

(** The loop [while queue] of [get_matching_blocks].  The head of [queue] is
    the end of the Python list ([pop] and [append] work there).  [None] is
    returned when [fuel] rounds were not enough. *)
Fixpoint mb_loop (fuel : nat) (queue : list region)
  (matching_blocks : list block) : option (list block) :=
  match queue with
  | [] => Some matching_blocks
  | (alo, ahi, blo, bhi) :: rest =>
      match fuel with
      | 0 => None
      | S fuel' =>
          let '(i, j, k) := find_longest_match alo ahi blo bhi in
          if k =? 0 then mb_loop fuel' rest matching_blocks
          else
            let q1 := if (alo <? i) && (blo <? j)
                      then (alo, i, blo, j) :: rest else rest in
            let q2 := if (i + k <? ahi) && (j + k <? bhi)
                      then (i + k, ahi, j + k, bhi) :: q1 else q1 in
            mb_loop fuel' q2 (matching_blocks ++ [(i, j, k)])
      end
  end.

(** Order of tuples, as [list.sort] compares them. *)
Definition block_leb (x y : block) : bool :=
  let '(i1, j1, k1) := x in
  let '(i2, j2, k2) := y in
  (i1 <? i2) || ((i1 =? i2) && ((j1 <? j2) || ((j1 =? j2) && (k1 <=? k2)))).

Fixpoint insert_sorted (x : block) (l : list block) : list block :=
  match l with
  | [] => [x]
  | y :: l' => if block_leb x y then x :: l else y :: insert_sorted x l'
  end.

Definition sort_blocks (l : list block) : list block :=
  fold_right insert_sorted [] l.

(** The loop that collapses adjacent equal blocks. *)
Fixpoint collapse (blocks : list block) (cur : block)
  (non_adjacent : list block) : block * list block :=
  match blocks with
  | [] => (cur, non_adjacent)
  | (i2, j2, k2) :: rest =>
      let '(i1, j1, k1) := cur in
      if (i1 + k1 =? i2) && (j1 + k1 =? j2)
      then collapse rest (i1, j1, k1 + k2) non_adjacent
      else collapse rest (i2, j2, k2)
             (if k1 =? 0 then non_adjacent else non_adjacent ++ [(i1, j1, k1)])
  end.

(** Rounds that always suffice for [mb_loop] (see [mb_loop_terminates]). *)
Definition mb_fuel : nat := 2 * List.length a + 1.

Definition get_matching_blocks : list block :=
  let la := List.length a in
  let lb := List.length b in
  let matching_blocks :=
    match mb_loop mb_fuel [(0, la, 0, lb)] [] with
    | Some l => l
    | None => []
    end in
  let '((i1, j1, k1), non_adjacent) :=
    collapse (sort_blocks matching_blocks) (0, 0, 0) [] in
  let non_adjacent :=
    if k1 =? 0 then non_adjacent else non_adjacent ++ [(i1, j1, k1)] in
  non_adjacent ++ [(la, lb, 0)].

(** The loop of [get_opcodes]. *)
Fixpoint opcodes_loop (blocks : list block) (i j : nat) (answer : list opcode)
  : list opcode :=
  match blocks with
  | [] => answer
  | (ai, bj, size) :: rest =>
      let answer1 :=
        if (i <? ai) && (j <? bj) then answer ++ [mkOp Replace i ai j bj]
        else if i <? ai then answer ++ [mkOp Delete i ai j bj]
        else if j <? bj then answer ++ [mkOp Insert i ai j bj]
        else answer in
      let i' := ai + size in
      let j' := bj + size in
      let answer2 :=
        if size =? 0 then answer1 else answer1 ++ [mkOp Equal ai i' bj j'] in
      opcodes_loop rest i' j' answer2
  end.

Definition get_opcodes : list opcode :=
  opcodes_loop get_matching_blocks 0 0 [].

(** [codes[0] = f(codes[0])] and [codes[-1] = f(codes[-1])] *)
Definition update_first (f : opcode -> opcode) (codes : list opcode)
  : list opcode :=
  match codes with
  | [] => []
  | c :: rest => f c :: rest
  end.

Fixpoint update_last (f : opcode -> opcode) (codes : list opcode)
  : list opcode :=
  match codes with
  | [] => []
  | [c] => [f c]
  | c :: rest => c :: update_last f rest
  end.

Definition fix_leading (n : nat) (c : opcode) : opcode :=
  if tag_eqb (op_tag c) Equal
  then mkOp (op_tag c) (Nat.max (op_i1 c) (op_i2 c - n)) (op_i2 c)
            (Nat.max (op_j1 c) (op_j2 c - n)) (op_j2 c)
  else c.

Definition fix_trailing (n : nat) (c : opcode) : opcode :=
  if tag_eqb (op_tag c) Equal
  then mkOp (op_tag c) (op_i1 c) (Nat.min (op_i2 c) (op_i1 c + n))
            (op_j1 c) (Nat.min (op_j2 c) (op_j1 c + n))
  else c.

(** The loop of [get_grouped_opcodes]; [done] collects what was yielded. *)
Fixpoint group_loop (n : nat) (codes : list opcode) (group : list opcode)
  (done : list (list opcode)) : list opcode * list (list opcode) :=
  match codes with
  | [] => (group, done)
  | c :: rest =>
      if tag_eqb (op_tag c) Equal && (n + n <? op_i2 c - op_i1 c)
      then
        let closing := mkOp (op_tag c) (op_i1 c)
                            (Nat.min (op_i2 c) (op_i1 c + n)) (op_j1 c)
                            (Nat.min (op_j2 c) (op_j1 c + n)) in
        let i1 := Nat.max (op_i1 c) (op_i2 c - n) in
        let j1 := Nat.max (op_j1 c) (op_j2 c - n) in
        group_loop n rest [mkOp (op_tag c) i1 (op_i2 c) j1 (op_j2 c)]
                   (done ++ [group ++ [closing]])
      else group_loop n rest (group ++ [c]) done
  end.

Definition get_grouped_opcodes (n : nat) : list (list opcode) :=
  let codes := get_opcodes in
  let codes := if truthy_list codes then codes else [mkOp Equal 0 1 0 1] in
  let codes := update_first (fix_leading n) codes in
  let codes := update_last (fix_trailing n) codes in
  let '(group, done) := group_loop n codes [] [] in
  match group with
  | [] => done
  | [c] => if tag_eqb (op_tag c) Equal then done else done ++ [group]
  | _ => done ++ [group]
  end.

End SequenceMatcher.

(** [_format_range_unified(start, stop)] *)
Definition _format_range_unified (start stop : nat) : string :=
  let beginning := start + 1 in
  let length := stop - start in
  if length =? 1 then str_of_nat beginning
  else
    let beginning := if length =? 0 then beginning - 1 else beginning in
    str_of_nat beginning ++ "," ++ str_of_nat length.

(** [xs[i1:i2]] *)
Definition slice {A : Type} (xs : list A) (i1 i2 : nat) : list A :=
  firstn (i2 - i1) (skipn i1 xs).

Definition tab_str : string := String "009"%char EmptyString.

(** The lines [unified_diff] yields for one opcode of a group. *)
Definition opcode_lines (a b : list string) (c : opcode) : list string :=
  match op_tag c with
  | Equal => map (String.append " ") (slice a (op_i1 c) (op_i2 c))
  | Replace =>
      map (String.append "-") (slice a (op_i1 c) (op_i2 c))
      ++ map (String.append "+") (slice b (op_j1 c) (op_j2 c))
  | Delete => map (String.append "-") (slice a (op_i1 c) (op_i2 c))
  | Insert => map (String.append "+") (slice b (op_j1 c) (op_j2 c))
  end.

Definition dummy_opcode : opcode := mkOp Equal 0 0 0 0.

(** The lines [unified_diff] yields for one group, after the file header. *)
Definition group_lines (a b : list string) (lineterm : string)
  (group : list opcode) : list string :=
  let first := hd dummy_opcode group in
  let last := List.last group dummy_opcode in
  let file1_range := _format_range_unified (op_i1 first) (op_i2 last) in
  let file2_range := _format_range_unified (op_j1 first) (op_j2 last) in
  ("@@ -" ++ file1_range ++ " +" ++ file2_range ++ " @@" ++ lineterm)%string
    :: flat_map (opcode_lines a b) group.

(** [list(unified_diff(a, b, fromfile, tofile, fromfiledate, tofiledate, n,
    lineterm))] *)
Definition unified_diff (a b : list string)
  (fromfile tofile fromfiledate tofiledate : string) (n : nat)
  (lineterm : string) : list string :=
  match get_grouped_opcodes a b n with
  | [] => []
  | groups =>
      let fromdate :=
        if String.eqb fromfiledate "" then "" else (tab_str ++ fromfiledate)%string in
      let todate :=
        if String.eqb tofiledate "" then "" else (tab_str ++ tofiledate)%string in
      ("--- " ++ fromfile ++ fromdate ++ lineterm)%string
        :: ("+++ " ++ tofile ++ todate ++ lineterm)%string
        :: flat_map (group_lines a b lineterm) groups
  end.

End Difflib.


(** ** class IRDiffTool

    [instruction_patterns] (a table of regular expressions set up by
    [__init__]) is read by none of the methods below and is left out.
    [run_clang] and [run_opt] only start external processes. *)

Module IRDiffTool.

(** *** parse_ir *)

(** The value [parse_ir] returns: function name to list of blocks, a block
    being a list of raw lines. *)
Definition function_model : Type := list (string * list (list string)).

(** The local variables of [parse_ir]. *)
Record parse_state : Type := mkParse {
  functions : function_model;
  current_func : option string;
  current_blocks : list (list string);
  current_block : list string
}.

Definition parse_init : parse_state := mkParse [] None [] [].

(** [if current_func: functions[current_func] = current_blocks] *)
Definition store_current (st : parse_state) : function_model :=
  match current_func st with
  | Some f =>
      if truthy_opt_str (Some f)
      then dict_set String.eqb (functions st) f (current_blocks st)
      else functions st
  | None => functions st
  end.

(** [if current_block: current_blocks.append(current_block)] *)
Definition flush_block (st : parse_state) : list (list string) :=
  if truthy_list (current_block st)
  then current_blocks st ++ [current_block st]
  else current_blocks st.

(** [line.split('@')[1].split('(')[0]] *)
Definition function_name (line : string) : result string :=
  bind (index (split "@" line) 1) (fun after_at =>
  index (split "(" after_at) 0).

(** The body of the loop [for line in content.split('\n')]. *)
Definition parse_line (st : parse_state) (line : string)
  : result parse_state :=
  if startswith line "define" then
    let functions' := store_current st in
    bind (function_name line) (fun name =>
    Ok (mkParse functions' (Some name) [] [line]))
  else if startswith line "  " then
    if startswith (strip line) ";" then Ok st
    else if startswith (strip line) "%"
            && negb (startswith (strip line) "%0")
    then Ok (mkParse (functions st) (current_func st) (flush_block st) [line])
    else Ok (mkParse (functions st) (current_func st) (current_blocks st)
                     (current_block st ++ [line]))
  else
    if truthy_list (current_block st)
    then Ok (mkParse (functions st) (current_func st)
                     (current_blocks st ++ [current_block st]) [])
    else Ok st.

Fixpoint parse_lines (st : parse_state) (lines : list string)
  : result parse_state :=
  match lines with
  | [] => Ok st
  | line :: rest => bind (parse_line st line) (fun st' => parse_lines st' rest)
  end.

(** [parse_ir], on the text of the file. *)
Definition parse_ir (content : string) : result function_model :=
  bind (parse_lines parse_init (split nl content))
       (fun st => Ok (store_current st)).

(** *** structural_diff *)

(** [{'before': ..., 'after': ...}] *)
Record inst_pair : Type := mkPair {
  before : string;
  after : string
}.

(** The dict [_compare_instructions] returns. *)
Record block_changes : Type := mkBlockChanges {
  added : list string;
  removed : list string;
  modified : list inst_pair
}.

(** The dict [_compare_function] returns. *)
Record function_changes : Type := mkFunctionChanges {
  added_blocks : list (list string);
  removed_blocks : list (list string);
  modified_blocks : list (nat * block_changes)
}.

(** An element of a list of [instruction_changes]. *)
Inductive inst_change : Type :=
| ChangedLine (line : string)
| ChangedPair (p : inst_pair).

(** The dict [structural_diff] returns; [instruction_changes] is itself a
    dict from a kind to the list of changes of that kind. *)
Record changes : Type := mkChanges {
  added_functions : list string;
  removed_functions : list string;
  modified_functions : list (string * function_changes);
  instruction_changes : list (string * list inst_change)
}.

(** [len(d)] of the two result dicts: their keys are fixed. *)
Definition len_block_changes (_ : block_changes) : nat := 3.
Definition len_function_changes (_ : function_changes) : nat := 3.

(** Truth value of a dict with [n] keys. *)
Definition truthy_len (n : nat) : bool := negb (n =? 0).

Fixpoint list_eqb (xs ys : list string) : bool :=
  match xs, ys with
  | [], [] => true
  | x :: xs', y :: ys' => String.eqb x y && list_eqb xs' ys'
  | _, _ => false
  end.

(** The loop of [_compare_instructions] over [zip(before_insts, after_insts)]. *)
Fixpoint compare_instructions_loop (pairs : list (string * string))
  (acc : list inst_pair) : list inst_pair :=
  match pairs with
  | [] => acc
  | (before_inst, after_inst) :: rest =>
      if negb (String.eqb before_inst after_inst)
      then compare_instructions_loop rest (acc ++ [mkPair before_inst after_inst])
      else compare_instructions_loop rest acc
  end.

Definition _compare_instructions (before_insts after_insts : list string)
  : block_changes :=
  mkBlockChanges [] []
    (compare_instructions_loop (combine before_insts after_insts) []).

(** The loop of [_compare_function] over
    [enumerate(zip(before_blocks, after_blocks))]. *)
Fixpoint compare_function_loop (i : nat)
  (pairs : list (list string * list string))
  (acc : list (nat * block_changes)) : list (nat * block_changes) :=
  match pairs with
  | [] => acc
  | (before_block, after_block) :: rest =>
      if negb (list_eqb before_block after_block) then
        let block_changes := _compare_instructions before_block after_block in
        if truthy_len (len_block_changes block_changes)
        then compare_function_loop (S i) rest
               (dict_set Nat.eqb acc i block_changes)
        else compare_function_loop (S i) rest acc
      else compare_function_loop (S i) rest acc
  end.

Definition _compare_function (before_blocks after_blocks : list (list string))
  : function_changes :=
  mkFunctionChanges [] []
    (compare_function_loop 0 (combine before_blocks after_blocks) []).

Definition empty_changes : changes :=
  mkChanges [] [] [] [("added", []); ("removed", []); ("modified", [])].

(** The body of the loop [for func in ...] of [structural_diff]. *)
Definition diff_function (before_ir after_ir : function_model)
  (acc : changes) (func : string) : changes :=
  match dict_get String.eqb before_ir func with
  | None =>
      mkChanges (added_functions acc ++ [func]) (removed_functions acc)
                (modified_functions acc) (instruction_changes acc)
  | Some before_blocks =>
      match dict_get String.eqb after_ir func with
      | None =>
          mkChanges (added_functions acc) (removed_functions acc ++ [func])
                    (modified_functions acc) (instruction_changes acc)
      | Some after_blocks =>
          let func_changes := _compare_function before_blocks after_blocks in
          if truthy_len (len_function_changes func_changes)
          then mkChanges (added_functions acc) (removed_functions acc)
                 (dict_set String.eqb (modified_functions acc) func func_changes)
                 (instruction_changes acc)
          else acc
      end
  end.

(** [structural_diff] for a given order of iteration over
    [set(before_ir.keys()) | set(after_ir.keys())].  CPython fixes no order
    for a set of strings, so the order is a parameter. *)
Definition structural_diff_in (order : list string)
  (before_ir after_ir : function_model) : changes :=
  fold_left (diff_function before_ir after_ir) order empty_changes.

(** The elements of [set(before_ir.keys()) | set(after_ir.keys())], each
    once, in order of first appearance. *)
Definition key_union (before_ir after_ir : function_model) : list string :=
  let ks := dict_keys before_ir in
  nodup string_dec (ks ++ dict_keys after_ir).

Definition structural_diff (before_ir after_ir : function_model) : changes :=
  structural_diff_in (key_union before_ir after_ir) before_ir after_ir.

(** *** generate_side_by_side_diff *)

(** [line[1:]] *)
Definition tail_str (line : string) : string :=
  match line with
  | EmptyString => EmptyString
  | String _ rest => rest
  end.

Definition _align_lines (before_lines after_lines : list string)
  : list string :=
  let max_before := max_len before_lines in
  let paired :=
    map (fun ba => (ljust (rstrip (fst ba)) max_before ++ " | "
                    ++ rstrip (snd ba))%string)
        (combine before_lines after_lines) in
  let remaining :=
    if List.length after_lines <? List.length before_lines then
      map (fun b => (ljust (rstrip b) max_before ++ " |")%string)
          (skipn (List.length after_lines) before_lines)
    else if List.length before_lines <? List.length after_lines then
      map (fun a => (ljust "" max_before ++ " | " ++ rstrip a)%string)
          (skipn (List.length before_lines) after_lines)
    else [] in
  paired ++ remaining.

(** [if before_lines or after_lines: output.extend(self._align_lines(...))] *)
Definition flush_aligned (output before_lines after_lines : list string)
  : list string :=
  if truthy_list before_lines || truthy_list after_lines
  then output ++ _align_lines before_lines after_lines
  else output.

(** The loop of [_format_side_by_side]; the state is
    [(output, before_lines, after_lines)]. *)
Fixpoint format_loop (section : list string)
  (output before_lines after_lines : list string)
  : list string * list string * list string :=
  match section with
  | [] => (output, before_lines, after_lines)
  | line :: rest =>
      if startswith line "-"
      then format_loop rest output (before_lines ++ [tail_str line]) after_lines
      else if startswith line "+"
      then format_loop rest output before_lines (after_lines ++ [tail_str line])
      else format_loop rest
             (flush_aligned output before_lines after_lines ++ [line]) [] []
  end.

Definition _format_side_by_side (section : list string) : list string :=
  let '(output, before_lines, after_lines) := format_loop section [] [] [] in
  flush_aligned output before_lines after_lines.

(** [if current_section: output.extend(self._format_side_by_side(...))] *)
Definition flush_section (output current_section : list string)
  : list string :=
  if truthy_list current_section
  then output ++ _format_side_by_side current_section
  else output.

(** The loop [for line in diff] of [generate_side_by_side_diff]. *)
Fixpoint sections_loop (diff output current_section : list string)
  : list string * list string :=
  match diff with
  | [] => (output, current_section)
  | line :: rest =>
      if startswith line "@@"
      then sections_loop rest (flush_section output current_section) []
      else sections_loop rest output (current_section ++ [line])
  end.

(** The list [output] that [generate_side_by_side_diff] joins. *)
Definition side_by_side_rows (before_text after_text : string) : list string :=
  let before_lines := readlines before_text in
  let after_lines := readlines after_text in
  let diff :=
    Difflib.unified_diff before_lines after_lines "Before" "After" "" "" 3 "" in
  let '(output, current_section) := sections_loop diff [] [] in
  flush_section output current_section.

(** [generate_side_by_side_diff], on the texts of the two files. *)
Definition generate_side_by_side_diff (before_text after_text : string)
  : string :=
  join nl_str (side_by_side_rows before_text after_text).

(** *** analyze_changes *)

Record transformation : Type := mkTransformation {
  type : string;
  count : nat;
  description : string
}.

Record analysis : Type := mkAnalysis {
  optimization_effects : list string;
  performance_impact : string;
  key_transformations : list transformation
}.

(** The loop over [changes['instruction_changes'].items()]. *)
Fixpoint instruction_transformations
  (items : list (string * list inst_change)) : list transformation :=
  match items with
  | [] => []
  | (inst_type, insts) :: rest =>
      if truthy_list insts
      then mkTransformation ("instruction_" ++ inst_type) (List.length insts)
             (str_of_nat (List.length insts) ++ " instructions " ++ inst_type)
           :: instruction_transformations rest
      else instruction_transformations rest
  end.

(** [any(t['type'] in names for t in ts)] *)
Definition any_type_in (names : list string) (ts : list transformation) : bool :=
  existsb (fun t => existsb (String.eqb (type t)) names) ts.

Definition analyze_changes (c : changes) : analysis :=
  let kt1 :=
    if truthy_list (added_functions c)
    then [mkTransformation "function_addition" (List.length (added_functions c))
            ("Added " ++ str_of_nat (List.length (added_functions c))
             ++ " new functions")]
    else [] in
  let kt2 :=
    if truthy_list (removed_functions c)
    then kt1 ++
         [mkTransformation "function_removal" (List.length (removed_functions c))
            ("Removed " ++ str_of_nat (List.length (removed_functions c))
             ++ " functions")]
    else kt1 in
  let kt := kt2 ++ instruction_transformations (instruction_changes c) in
  let impact :=
    if any_type_in ["instruction_removal"; "function_removal"] kt then "high"
    else if any_type_in ["instruction_modified"; "function_modified"] kt
    then "medium"
    else "low" in
  mkAnalysis [] impact kt.

End IRDiffTool.


(** ** webapp/app.py: allowed_file *)

Module WebApp.

(** [c in s] *)
Fixpoint char_in (c : ascii) (s : string) : bool :=
  match s with
  | EmptyString => false
  | String c' s' => Ascii.eqb c' c || char_in c s'
  end.

(** [s.rsplit(sep, 1)] for a separator of one character, when [sep] occurs:
    the text before the last [sep] and the text after it. *)
Fixpoint rsplit_last (sep : ascii) (s : string) : option (string * string) :=
  match s with
  | EmptyString => None
  | String c s' =>
      match rsplit_last sep s' with
      | Some (h, t) => Some (String c h, t)
      | None => if Ascii.eqb c sep then Some (EmptyString, s') else None
      end
  end.

(** [s.rsplit(sep, 1)] *)
Definition rsplit1 (sep : ascii) (s : string) : list string :=
  match rsplit_last sep s with
  | Some (h, t) => [h; t]
  | None => [s]
  end.

(** [c.lower()] on code points below 256: the letters A-Z and the accented
    capitals of Latin-1 (0xC0-0xDE without the multiplication sign 0xD7). *)
Definition lower_char (c : ascii) : ascii :=
  let n := nat_of_ascii c in
  if ((65 <=? n) && (n <=? 90))
     || ((192 <=? n) && (n <=? 222) && negb (n =? 215))
  then ascii_of_nat (n + 32)
  else c.

(** [s.lower()] *)
Fixpoint lower (s : string) : string :=
  match s with
  | EmptyString => EmptyString
  | String c s' => String (lower_char c) (lower s')
  end.

(** [{'cpp', 'cc', 'cxx'}] *)
Definition allowed_extensions : list string := ["cpp"; "cc"; "cxx"].

(** [allowed_file(filename)]:
    ['.' in filename and
     filename.rsplit('.', 1)[1].lower() in {'cpp', 'cc', 'cxx'}] *)
Definition allowed_file (filename : string) : result bool :=
  if char_in "." filename then
    bind (Py.index (rsplit1 "." filename) 1) (fun ext =>
    Ok (existsb (String.eqb (lower ext)) allowed_extensions))
  else Ok false.

End WebApp.


(** ** Project/app.py: the diff written to diff_output.txt *)

Module ProjectApp.

(** [f.writelines(lines)]: the text written. *)
Fixpoint writelines (lines : list string) : string :=
  match lines with
  | [] => EmptyString
  | line :: rest => line ++ writelines rest
  end.

(** The text [index] writes to [diff_output.txt], from the texts of
    [before.ll] and [after.ll]:
    [difflib.unified_diff(before, after, fromfile="before.ll",
                          tofile="after.ll")] on the lines of both. *)
Definition diff_output (before_text after_text : string) : string :=
  let before := readlines before_text in
  let after := readlines after_text in
  writelines
    (Difflib.unified_diff before after "before.ll" "after.ll" "" "" 3 nl_str).

End ProjectApp.


(** ** Vocabulary of the specification

    Notions the statements below need and the program does not name. *)

Module Doc.

Import IRDiffTool.

(** [c in s] *)
Fixpoint contains_char (c : ascii) (s : string) : bool :=
  match s with
  | EmptyString => false
  | String c' s' => Ascii.eqb c' c || contains_char c s'
  end.

(** A function-definition line, an indented line and a comment line, as
    [parse_ir] tells them apart. *)
Definition is_define (line : string) : bool := startswith line "define".
Definition is_indented (line : string) : bool := startswith line "  ".
Definition is_comment (line : string) : bool := startswith (strip line) ";".

(** The lines a round trip is expected to give back: function-definition
    lines and indented lines that are not comments. *)
Definition kept_line (line : string) : bool :=
  is_define line || (is_indented line && negb (is_comment line)).

(** The lines from the first function-definition line on. *)
Fixpoint from_first_define (lines : list string) : list string :=
  match lines with
  | [] => []
  | line :: rest => if is_define line then lines else from_first_define rest
  end.

(** The names [parse_ir] extracts from the function-definition lines, in
    order ([Raise] where the extraction fails). *)
Definition define_names (lines : list string) : list (result string) :=
  map function_name (filter is_define lines).

(** An extracted name under which [parse_ir] stores a function: the
    extraction succeeded and the name is not empty. *)
Definition usable_name (r : result string) : Prop :=
  exists name, r = Ok name /\ name <> EmptyString.

(** The block contents of a parsed model, concatenated in order. *)
Definition model_lines (fm : function_model) : list string :=
  List.concat (map (fun kv => List.concat (snd kv)) fm).

(** Every block is closed by a line that is neither indented nor a
    function-definition line (a closing brace, a blank line) before the next
    function-definition line and before the end of the input; [open] tells
    whether a block is open on entry.  Indented comment lines neither open
    nor close a block. *)
Fixpoint blocks_closed (open : bool) (lines : list string) : bool :=
  match lines with
  | [] => negb open
  | line :: rest =>
      if is_define line then negb open && blocks_closed true rest
      else if is_indented line then
        if is_comment line then blocks_closed open rest
        else blocks_closed true rest
      else blocks_closed false rest
  end.

(** The stripped line defines the value whose whole name is [%0]: its first
    word is exactly ["%0"]. *)
Definition defines_first_temporary (stripped : string) : bool :=
  match split " " stripped with
  | word :: _ => String.eqb word "%0"
  | [] => false
  end.

(** The outcome "a new block was started with [line]": the block under
    construction, if any, went to the block list and the new block holds
    [line] alone. *)
Definition starts_new_block (st : parse_state) (line : string) : Prop :=
  parse_line st line
  = Ok (mkParse (functions st) (current_func st) (flush_block st) [line]).

(** The outcome "[line] was appended to the block under construction". *)
Definition appends_to_block (st : parse_state) (line : string) : Prop :=
  parse_line st line
  = Ok (mkParse (functions st) (current_func st) (current_blocks st)
                (current_block st ++ [line])).

End Doc.


(** * Properties *)

Import IRDiffTool.

(** ** Change analyzer *)

Section Analyzer.

Lemma any_type_in_app (names : list string) (xs ys : list transformation) :
  any_type_in names (xs ++ ys) = any_type_in names xs || any_type_in names ys.
Proof. unfold any_type_in. apply existsb_app. Qed.

Lemma truthy_list_true {A : Type} (xs : list A) :
  xs <> [] -> truthy_list xs = true.
Proof. destruct xs; [congruence | reflexivity]. Qed.

(** The types emitted for the instruction buckets all carry the prefix
    ["instruction_"] followed by the key of the bucket. *)
Lemma instruction_transformations_types (items : list (string * list inst_change)) :
  map type (instruction_transformations items)
  = map (fun kv => ("instruction_" ++ fst kv)%string)
        (filter (fun kv => truthy_list (snd kv)) items).
Proof.
  induction items as [| [k insts] items IH]; simpl; [reflexivity |].
  destruct (truthy_list insts); simpl; now rewrite IH.
Qed.

(** C5: a diff with at least one removed function and at least one added
    function is rated ["high"]: the removal entry is emitted and the test for
    ["function_removal"] comes first. *)
Theorem removal_outranks_addition (c : changes) :
  removed_functions c <> [] ->
  added_functions c <> [] ->
  performance_impact (analyze_changes c) = "high".
Proof.
  intros Hrem Hadd. unfold analyze_changes.
  rewrite (truthy_list_true _ Hrem), (truthy_list_true _ Hadd). cbn [performance_impact].
  rewrite !any_type_in_app.
  replace (any_type_in ["instruction_removal"; "function_removal"]
             [mkTransformation "function_removal" (List.length (removed_functions c))
                ("Removed " ++ str_of_nat (List.length (removed_functions c))
                 ++ " functions")]) with true by reflexivity.
  now rewrite orb_true_r.
Qed.

Lemma removal_outranks_addition_witness :
  performance_impact
    (analyze_changes (mkChanges ["g"] ["f"] []
                        [("added", []); ("removed", []); ("modified", [])]))
  = "high".
Proof.
  apply removal_outranks_addition; simpl; discriminate.
Defined.

(** The rating for the three buckets [structural_diff] sets up: only removed
    functions give ["high"], only the ["modified"] bucket gives ["medium"]. *)
Lemma performance_impact_of_buckets (c : changes)
  (adds rems mods : list inst_change) :
  instruction_changes c
  = [("added", adds); ("removed", rems); ("modified", mods)] ->
  performance_impact (analyze_changes c)
  = if truthy_list (removed_functions c) then "high"
    else if truthy_list mods then "medium"
    else "low".
Proof.
  intros H. unfold analyze_changes. rewrite H.
  destruct (added_functions c), (removed_functions c), adds, rems, mods;
    reflexivity.
Qed.

(** C3: with one or more removed instructions in the ["removed"] bucket (and
    nothing else changed) the only entry emitted has type
    ["instruction_removed"], which is not one of the two names tested for
    ["high"], so the rating stays ["low"]. *)
Theorem removed_instructions_rated_low (x : inst_change) (rest : list inst_change) :
  let c := mkChanges [] [] []
             [("added", []); ("removed", x :: rest); ("modified", [])] in
  map type (key_transformations (analyze_changes c)) = ["instruction_removed"]
  /\ performance_impact (analyze_changes c) = "low".
Proof. split; reflexivity. Qed.

End Analyzer.

(** ** Structural differ *)

Section Differ.

Lemma list_eqb_refl (xs : list string) : list_eqb xs xs = true.
Proof.
  induction xs as [| x xs IH]; simpl; [reflexivity |].
  now rewrite String.eqb_refl, IH.
Qed.

Lemma list_eqb_eq (xs ys : list string) : list_eqb xs ys = true <-> xs = ys.
Proof.
  split; [| intros ->; apply list_eqb_refl].
  revert ys; induction xs as [| x xs IH]; intros [| y ys]; simpl;
    try discriminate; [reflexivity |].
  intros H. apply andb_true_iff in H as [Hx Hxs].
  apply String.eqb_eq in Hx. apply IH in Hxs. congruence.
Qed.

Lemma list_eqb_neq (xs ys : list string) : xs <> ys -> list_eqb xs ys = false.
Proof.
  intros H. destruct (list_eqb xs ys) eqn:E; [| reflexivity].
  apply list_eqb_eq in E. contradiction.
Qed.

(** Positional comparison of the lines of two blocks: the pairs recorded are
    the pairs of [zip] whose two lines differ, in order. *)
Lemma compare_instructions_loop_spec (pairs : list (string * string))
  (acc : list inst_pair) :
  compare_instructions_loop pairs acc
  = acc ++ map (fun p => mkPair (fst p) (snd p))
             (filter (fun p => negb (String.eqb (fst p) (snd p))) pairs).
Proof.
  revert acc; induction pairs as [| [x y] pairs IH]; intros acc; simpl.
  - now rewrite app_nil_r.
  - destruct (String.eqb x y); simpl; rewrite IH; [reflexivity |].
    now rewrite <- app_assoc.
Qed.

Lemma compare_instructions_zip (before_insts after_insts : list string) :
  modified (_compare_instructions before_insts after_insts)
  = map (fun p => mkPair (fst p) (snd p))
      (filter (fun p => negb (String.eqb (fst p) (snd p)))
              (combine before_insts after_insts)).
Proof. unfold _compare_instructions; simpl. now rewrite compare_instructions_loop_spec. Qed.

(** Equal blocks at every position leave the accumulator untouched. *)
Lemma compare_function_loop_same (blocks : list (list string)) (i : nat)
  (acc : list (nat * block_changes)) :
  compare_function_loop i (combine blocks blocks) acc = acc.
Proof.
  revert i acc; induction blocks as [| bl blocks IH]; intros i acc; simpl;
    [reflexivity |].
  rewrite list_eqb_refl. simpl. apply IH.
Qed.

Lemma compare_function_same (blocks : list (list string)) :
  _compare_function blocks blocks = mkFunctionChanges [] [] [].
Proof. unfold _compare_function. now rewrite compare_function_loop_same. Qed.

Lemma dict_get_set_same {V : Type} (d : list (string * V)) (k : string) (v : V) :
  dict_get String.eqb (dict_set String.eqb d k v) k = Some v.
Proof.
  induction d as [| [k' v'] d IH]; simpl.
  - now rewrite String.eqb_refl.
  - destruct (String.eqb k' k) eqn:E; simpl.
    + now rewrite String.eqb_refl.
    + now rewrite E.
Qed.

Lemma dict_get_set_other {V : Type} (d : list (string * V)) (k k0 : string) (v : V) :
  k <> k0 ->
  dict_get String.eqb (dict_set String.eqb d k v) k0 = dict_get String.eqb d k0.
Proof.
  intros Hne. induction d as [| [k' v'] d IH]; simpl.
  - destruct (String.eqb k k0) eqn:E; [| reflexivity].
    apply String.eqb_eq in E. contradiction.
  - destruct (String.eqb k' k) eqn:E; simpl.
    + apply String.eqb_eq in E; subst k'.
      destruct (String.eqb k k0) eqn:E0; [| reflexivity].
      apply String.eqb_eq in E0. contradiction.
    + destruct (String.eqb k' k0); [reflexivity | apply IH].
Qed.

(** One round of the loop of [structural_diff] when both models are [M]. *)
Lemma diff_function_self (M : function_model) (acc : changes) (g : string) :
  modified_functions (diff_function M M acc g)
  = match dict_get String.eqb M g with
    | Some _ => dict_set String.eqb (modified_functions acc) g
                  (mkFunctionChanges [] [] [])
    | None => modified_functions acc
    end.
Proof.
  unfold diff_function. destruct (dict_get String.eqb M g) as [bl |]; simpl;
    [| reflexivity].
  now rewrite compare_function_same.
Qed.

Lemma structural_diff_self_fold (M : function_model) (order : list string)
  (f : string) (acc : changes) :
  dict_mem String.eqb M f = true ->
  In f order
  \/ dict_get String.eqb (modified_functions acc) f
     = Some (mkFunctionChanges [] [] []) ->
  dict_get String.eqb
    (modified_functions (fold_left (diff_function M M) order acc)) f
  = Some (mkFunctionChanges [] [] []).
Proof.
  intros Hmem. revert acc; induction order as [| g order IH]; intros acc H; simpl.
  - destruct H as [[] | H]; exact H.
  - apply IH. destruct (string_dec g f) as [-> | Hne].
    + right. rewrite diff_function_self.
      unfold dict_mem in Hmem.
      destruct (dict_get String.eqb M f); [| discriminate].
      apply dict_get_set_same.
    + destruct H as [[Heq | Hin] | Hacc]; [contradiction | now left |].
      right. rewrite diff_function_self.
      destruct (dict_get String.eqb M g); [| exact Hacc].
      now rewrite dict_get_set_other.
Qed.

Lemma in_key_union_l (M N : function_model) (f : string) :
  dict_mem String.eqb M f = true -> In f (key_union M N).
Proof.
  intros H. unfold key_union. apply nodup_In, in_or_app. left.
  unfold dict_mem in H. induction M as [| [k v] M IH]; simpl in *;
    [discriminate |].
  destruct (String.eqb k f) eqn:E.
  - left. now apply String.eqb_eq.
  - right. apply IH, H.
Qed.

(** C1: diffing a model against itself does NOT leave [modified_functions]
    empty.  [_compare_function] returns a dict with three keys, which is true
    as a condition even when nothing was recorded, so every function of [M]
    is stored in [modified_functions] (with an empty change record), whatever
    the order of iteration. *)
Theorem structural_diff_self_records_functions (M : function_model)
  (f : string) (blocks : list (list string)) :
  dict_get String.eqb M f = Some blocks ->
  (forall order, In f order ->
     dict_get String.eqb (modified_functions (structural_diff_in order M M)) f
     = Some (mkFunctionChanges [] [] []))
  /\ dict_get String.eqb (modified_functions (structural_diff M M)) f
     = Some (mkFunctionChanges [] [] [])
  /\ modified_functions (structural_diff M M) <> [].
Proof.
  intros Hget.
  assert (Hmem : dict_mem String.eqb M f = true)
    by (unfold dict_mem; now rewrite Hget).
  assert (Hall : forall order, In f order ->
     dict_get String.eqb (modified_functions (structural_diff_in order M M)) f
     = Some (mkFunctionChanges [] [] [])).
  { intros order Hin. unfold structural_diff_in.
    apply structural_diff_self_fold; [exact Hmem | now left]. }
  assert (Hcan : dict_get String.eqb (modified_functions (structural_diff M M)) f
                 = Some (mkFunctionChanges [] [] [])).
  { apply Hall, in_key_union_l, Hmem. }
  repeat split; [exact Hall | exact Hcan |].
  intros Hnil. rewrite Hnil in Hcan. discriminate.
Qed.

Lemma structural_diff_self_records_functions_witness :
  modified_functions
    (structural_diff [("f", [["define void @f() {"]])]
                     [("f", [["define void @f() {"]])])
  <> [].
Proof.
  apply (structural_diff_self_records_functions
           [("f", [["define void @f() {"]])] "f" [["define void @f() {"]]).
  reflexivity.
Defined.

(** The loop over the zipped blocks when the leading pair differs. *)
Lemma compare_function_loop_differ (i : nat) (bb ab : list string)
  (rest : list (list string * list string)) (acc : list (nat * block_changes)) :
  bb <> ab ->
  compare_function_loop i ((bb, ab) :: rest) acc
  = compare_function_loop (S i) rest
      (dict_set Nat.eqb acc i (_compare_instructions bb ab)).
Proof. intros H. simpl. now rewrite (list_eqb_neq _ _ H). Qed.

(** C4: with blocks [A; B; C] before and [X; A; B; C] after, every pairwise
    position 0, 1, 2 gets a modified-block entry (the positional comparison
    of the two blocks standing there), the fourth block of the longer
    sequence is looked at by nobody, and nothing is reported as an added or
    a removed block.  The entries themselves pair the lines of the two
    blocks by position, truncated to the shorter block. *)
Theorem positional_block_comparison (A B C X : list string) :
  X <> A -> A <> B -> B <> C ->
  let r := _compare_function [A; B; C] [X; A; B; C] in
  modified_blocks r
  = [(0, _compare_instructions A X);
     (1, _compare_instructions B A);
     (2, _compare_instructions C B)]
  /\ added_blocks r = []
  /\ removed_blocks r = []
  /\ forall before_insts after_insts,
       modified (_compare_instructions before_insts after_insts)
       = map (fun p => mkPair (fst p) (snd p))
           (filter (fun p => negb (String.eqb (fst p) (snd p)))
                   (combine before_insts after_insts)).
Proof.
  intros HXA HAB HBC. cbv zeta. repeat split.
  - unfold _compare_function. cbn [combine modified_blocks].
    rewrite compare_function_loop_differ by congruence.
    rewrite compare_function_loop_differ by congruence.
    rewrite compare_function_loop_differ by congruence.
    reflexivity.
  - apply compare_instructions_zip.
Qed.

Lemma positional_block_comparison_witness :
  map fst (modified_blocks
             (_compare_function [["a"]; ["b"]; ["c"]]
                                [["x"]; ["a"]; ["b"]; ["c"]]))
  = [0; 1; 2].
Proof.
  destruct (positional_block_comparison ["a"] ["b"] ["c"] ["x"]) as [H _];
    try discriminate.
  cbv zeta in H. rewrite H. reflexivity.
Defined.

End Differ.

(** ** IR parser *)

Import Doc.

Section Parser.

Lemma split_not_nil (sep : ascii) (s : string) : split sep s <> [].
Proof.
  destruct s as [| c s]; simpl; [discriminate |].
  destruct (Ascii.eqb c sep); [discriminate |].
  destruct (split sep s); discriminate.
Qed.

(** [xs.split(sep)[0]] never raises. *)
Lemma index_split_0 (sep : ascii) (s : string) :
  exists h, index (split sep s) 0 = Ok h.
Proof.
  pose proof (split_not_nil sep s) as H.
  destruct (split sep s) as [| h t]; [contradiction |].
  exists h. reflexivity.
Qed.

(** Without the separator, [split] returns the string alone. *)
Lemma split_without_sep (sep : ascii) (s : string) :
  contains_char sep s = false -> split sep s = [s].
Proof.
  induction s as [| c s IH]; simpl; [reflexivity |].
  intros H. apply orb_false_iff in H as [Hc Hs].
  rewrite Hc, (IH Hs). reflexivity.
Qed.

(** With the separator, [split] returns at least two pieces. *)
Lemma split_with_sep (sep : ascii) (s : string) :
  contains_char sep s = true ->
  exists h x t, split sep s = h :: x :: t.
Proof.
  induction s as [| c s IH]; simpl; [discriminate |].
  intros H. destruct (Ascii.eqb c sep) eqn:E.
  - pose proof (split_not_nil sep s) as Hn.
    destruct (split sep s) as [| x t]; [contradiction |].
    now exists EmptyString, x, t.
  - simpl in H. destruct (IH H) as (h & x & t & ->).
    now exists (String c h), x, t.
Qed.

Lemma function_name_without_at (line : string) :
  contains_char "@" line = false -> function_name line = Raise IndexError.
Proof.
  intros H. unfold function_name. now rewrite (split_without_sep _ _ H).
Qed.

(** A function-definition line that has an ['@'] yields a name, with or
    without a ['('] after it. *)
Lemma function_name_with_at (line : string) :
  contains_char "@" line = true -> exists name, function_name line = Ok name.
Proof.
  intros H. unfold function_name.
  destruct (split_with_sep _ _ H) as (h & x & t & ->). cbn.
  apply index_split_0.
Qed.

Lemma parse_lines_app (st : parse_state) (xs ys : list string) :
  parse_lines st (xs ++ ys)
  = bind (parse_lines st xs) (fun st' => parse_lines st' ys).
Proof.
  revert st; induction xs as [| x xs IH]; intros st; simpl; [reflexivity |].
  destruct (parse_line st x) as [st' | e]; simpl; [apply IH | reflexivity].
Qed.

(** A line that is not a function-definition line is always accepted and
    leaves [functions] and [current_func] alone. *)
Lemma parse_line_not_define (st : parse_state) (line : string) :
  is_define line = false ->
  exists st', parse_line st line = Ok st'
              /\ functions st' = functions st
              /\ current_func st' = current_func st.
Proof.
  unfold is_define. intros H. unfold parse_line. rewrite H.
  destruct (startswith line "  ").
  - destruct (startswith (strip line) ";"); [now exists st |].
    destruct (startswith (strip line) "%" && negb (startswith (strip line) "%0"));
      eexists; repeat split.
  - destruct (truthy_list (current_block st)); eexists; repeat split.
Qed.

Lemma parse_lines_no_define (lines : list string) (st : parse_state) :
  (forall line, In line lines -> is_define line = false) ->
  exists st', parse_lines st lines = Ok st'
              /\ functions st' = functions st
              /\ current_func st' = current_func st.
Proof.
  revert st; induction lines as [| l lines IH]; intros st H; simpl.
  - now exists st.
  - destruct (parse_line_not_define st l) as (st1 & E1 & Hf & Hc);
      [apply H; now left |].
    rewrite E1. cbn [bind].
    destruct (IH st1) as (st2 & E2 & Hf2 & Hc2);
      [intros; apply H; now right |].
    exists st2. repeat split; congruence.
Qed.

(** C8: a text without any function-definition line parses to the empty
    mapping, and no exception is raised. *)
Theorem parse_ir_no_define (content : string) :
  (forall line, In line (split nl content) -> startswith line "define" = false) ->
  parse_ir content = Ok [].
Proof.
  intros H. unfold parse_ir.
  destruct (parse_lines_no_define (split nl content) parse_init H)
    as (st & -> & Hf & Hc).
  simpl. unfold store_current. rewrite Hc, Hf. reflexivity.
Qed.

Lemma parse_ir_no_define_witness :
  parse_ir ("; ModuleID = 'a.cpp'" ++ nl_str ++ "  ret void" ++ nl_str ++ "}")
  = Ok [].
Proof.
  apply parse_ir_no_define. cbn.
  intros line [<- | [<- | [<- | []]]]; reflexivity.
Defined.

Lemma parse_line_define_without_at (st : parse_state) (line : string) :
  is_define line = true -> contains_char "@" line = false ->
  parse_line st line = Raise IndexError.
Proof.
  unfold is_define. intros Hd Hat. unfold parse_line. rewrite Hd.
  now rewrite (function_name_without_at _ Hat).
Qed.

Lemma parse_lines_raises (lines : list string) (st : parse_state) (line : string) :
  In line lines -> is_define line = true -> contains_char "@" line = false ->
  parse_lines st lines = Raise IndexError.
Proof.
  intros Hin Hd Hat. revert st; induction lines as [| l lines IH]; intros st;
    [contradiction |].
  simpl. destruct Hin as [-> | Hin].
  - now rewrite parse_line_define_without_at.
  - destruct (parse_line st l) as [st' | []]; simpl; [now apply IH | reflexivity].
Qed.

(** C2: the parser is NOT total.  A line that begins with [define] and has no
    ['@'] makes [line.split('@')[1]] raise [IndexError], wherever the line
    stands in the text. *)
Theorem parse_ir_raises_without_at (content line : string) :
  In line (split nl content) ->
  startswith line "define" = true ->
  contains_char "@" line = false ->
  parse_ir content = Raise IndexError.
Proof.
  intros Hin Hd Hat. unfold parse_ir.
  now rewrite (parse_lines_raises _ _ _ Hin Hd Hat).
Qed.

Lemma parse_ir_raises_without_at_witness :
  parse_ir ("define i32 main() {" ++ nl_str ++ "  ret i32 0" ++ nl_str ++ "}")
  = Raise IndexError.
Proof.
  apply (parse_ir_raises_without_at _ "define i32 main() {");
    [cbn; now left | reflexivity | reflexivity].
Defined.

(** The only way to fail: when every function-definition line has an ['@'],
    [parse_ir] returns a mapping (a missing ['('] does no harm). *)
Lemma parse_lines_total_with_at (lines : list string) (st : parse_state) :
  (forall line, In line lines -> is_define line = true ->
                contains_char "@" line = true) ->
  exists st', parse_lines st lines = Ok st'.
Proof.
  revert st; induction lines as [| l lines IH]; intros st H; simpl;
    [now exists st |].
  assert (Hl : exists st1, parse_line st l = Ok st1).
  { destruct (is_define l) eqn:Hd.
    - destruct (function_name_with_at l) as (name & Hn);
        [apply H; [now left | exact Hd] |].
      unfold parse_line. unfold is_define in Hd. rewrite Hd, Hn. cbn.
      eexists; reflexivity.
    - destruct (parse_line_not_define st l Hd) as (st1 & -> & _).
      now exists st1. }
  destruct Hl as (st1 & ->). cbn. apply IH. intros; apply H; auto. now right.
Qed.

Lemma parse_ir_total_with_at (content : string) :
  (forall line, In line (split nl content) -> is_define line = true ->
                contains_char "@" line = true) ->
  exists fm, parse_ir content = Ok fm.
Proof.
  intros H. unfold parse_ir.
  destruct (parse_lines_total_with_at _ parse_init H) as (st & ->).
  cbn. eexists; reflexivity.
Qed.

(** *** Block boundaries *)

Lemma indented_not_define (line : string) :
  is_indented line = true -> is_define line = false.
Proof.
  unfold is_indented, is_define.
  destruct line as [| c rest]; cbn; [intros E; discriminate E |].
  destruct (Ascii.eqb_spec c " ") as [-> |]; [reflexivity |].
  intros E; discriminate E.
Qed.

Lemma percent_not_comment (s : string) :
  startswith s "%" = true -> startswith s ";" = false.
Proof.
  destruct s as [| c rest]; cbn; [intros E; discriminate E |].
  destruct (Ascii.eqb_spec c "%") as [-> |]; [reflexivity |].
  intros E; discriminate E.
Qed.

(** What [parse_line] does with an indented line whose stripped text starts
    with ['%']: the prefix test on ["%0"] alone decides. *)
Lemma parse_line_percent (st : parse_state) (line : string) :
  is_indented line = true ->
  startswith (strip line) "%" = true ->
  parse_line st line
  = if startswith (strip line) "%0"
    then Ok (mkParse (functions st) (current_func st) (current_blocks st)
                     (current_block st ++ [line]))
    else Ok (mkParse (functions st) (current_func st) (flush_block st) [line]).
Proof.
  intros Hi Hp. unfold parse_line.
  pose proof (indented_not_define _ Hi) as Hd.
  unfold is_define in Hd. unfold is_indented in Hi.
  rewrite Hd, Hi, (percent_not_comment _ Hp), Hp.
  destruct (startswith (strip line) "%0"); reflexivity.
Qed.

(** C6, as stated, fails: the indented line [  %01 = add i32 1, 2] defines
    [%01], not the first temporary [%0], yet no new block is started; the
    line joins the block under construction. *)
Lemma new_block_rule_counterexample :
  let st := mkParse [] (Some "f") [] ["define void @f() {"] in
  let line := "  %01 = add i32 1, 2" in
  startswith line "  " = true
  /\ startswith (strip line) "%" = true
  /\ ~ (starts_new_block st line
        <-> defines_first_temporary (strip line) = false).
Proof.
  cbv zeta. repeat split. intros [_ H].
  specialize (H eq_refl). unfold starts_new_block in H.
  vm_compute in H. discriminate H.
Qed.

(** C6, amended: an indented line whose stripped text starts with ['%']
    starts a new block when the stripped text does not begin with the two
    characters [%0], and is appended to the block under construction when it
    does (so [%0 = ...], [%01 = ...] and [%0x = ...] are all appended).  With
    a non-empty block under construction the two outcomes differ, and a new
    block is started if and only if the prefix test on ["%0"] fails. *)
Theorem new_block_iff_not_percent_zero_prefix (st : parse_state) (line : string) :
  startswith line "  " = true ->
  startswith (strip line) "%" = true ->
  (startswith (strip line) "%0" = false -> starts_new_block st line)
  /\ (startswith (strip line) "%0" = true -> appends_to_block st line)
  /\ (current_block st <> [] ->
      (starts_new_block st line <-> startswith (strip line) "%0" = false)).
Proof.
  intros Hi Hp. unfold starts_new_block, appends_to_block.
  rewrite (parse_line_percent st line Hi Hp).
  destruct (startswith (strip line) "%0").
  - split; [intros E; discriminate E |]. split; [reflexivity |].
    intros Hne. split; [| intros E; discriminate E].
    intros Heq. exfalso. injection Heq as _ Hb.
    apply (f_equal (@List.length string)) in Hb.
    rewrite length_app in Hb. cbn in Hb.
    destruct (current_block st); [contradiction | cbn in Hb; lia].
  - split; [reflexivity |]. split; [intros E; discriminate E |].
    intros _. split; reflexivity.
Qed.

Lemma new_block_iff_not_percent_zero_prefix_witness :
  starts_new_block (mkParse [] (Some "f") [] ["define void @f() {"])
                   "  %1 = alloca i32".
Proof.
  destruct (new_block_iff_not_percent_zero_prefix
              (mkParse [] (Some "f") [] ["define void @f() {"])
              "  %1 = alloca i32" eq_refl eq_refl) as [H _].
  apply H. reflexivity.
Defined.

(** *** Round trip *)

Lemma dict_set_fresh {V : Type} (d : list (string * V)) (k : string) (v : V) :
  ~ In k (dict_keys d) -> dict_set String.eqb d k v = d ++ [(k, v)].
Proof.
  induction d as [| [k' v'] d IH]; simpl; intros H; [reflexivity |].
  destruct (String.eqb_spec k' k) as [-> | Hne].
  - exfalso. apply H. now left.
  - rewrite IH; [reflexivity |]. intros Hin. apply H. now right.
Qed.

Lemma model_lines_snoc (fm : function_model) (k : string)
  (blocks : list (list string)) :
  model_lines (fm ++ [(k, blocks)]) = model_lines fm ++ List.concat blocks.
Proof.
  unfold model_lines. rewrite map_app, concat_app. simpl.
  now rewrite app_nil_r.
Qed.

Lemma concat_snoc (blocks : list (list string)) (bl : list string) :
  List.concat (blocks ++ [bl]) = List.concat blocks ++ bl.
Proof. rewrite concat_app. simpl. now rewrite app_nil_r. Qed.

Lemma concat_flush_block (st : parse_state) :
  List.concat (flush_block st)
  = List.concat (current_blocks st) ++ current_block st.
Proof.
  unfold flush_block. destruct (current_block st); simpl.
  - now rewrite app_nil_r.
  - apply concat_snoc.
Qed.

Lemma truthy_list_snoc {A : Type} (xs : list A) (x : A) :
  truthy_list (xs ++ [x]) = true.
Proof. destruct xs; reflexivity. Qed.

Lemma truthy_list_false {A : Type} (xs : list A) :
  truthy_list xs = false -> xs = [].
Proof. destruct xs; [reflexivity | discriminate]. Qed.

(** A line inside a function that is not a function-definition line: what it
    adds to the blocks, and whether a block is open afterwards. *)
Lemma parse_line_body (st : parse_state) (line : string) :
  is_define line = false ->
  exists st1,
    parse_line st line = Ok st1
    /\ functions st1 = functions st
    /\ current_func st1 = current_func st
    /\ List.concat (current_blocks st1) ++ current_block st1
       = List.concat (current_blocks st) ++ current_block st
         ++ (if kept_line line then [line] else [])
    /\ truthy_list (current_block st1)
       = (if is_indented line
          then if is_comment line then truthy_list (current_block st) else true
          else false).
Proof.
  intros Hd. unfold kept_line. rewrite Hd. cbn [orb].
  unfold parse_line. unfold is_define in Hd. rewrite Hd.
  unfold is_indented, is_comment.
  destruct (startswith line "  "); cbn [andb].
  - destruct (startswith (strip line) ";"); cbn [negb].
    + exists st. repeat split. now rewrite !app_nil_r.
    + destruct (startswith (strip line) "%"
                && negb (startswith (strip line) "%0"));
        eexists; (split; [reflexivity |]); cbn.
      * repeat split. rewrite concat_flush_block. now rewrite <- app_assoc.
      * repeat split. apply truthy_list_snoc.
  - destruct (truthy_list (current_block st)) eqn:Ht;
      eexists; (split; [reflexivity |]); cbn; repeat split.
    + rewrite concat_snoc. now rewrite !app_nil_r.
    + now rewrite !app_nil_r.
    + exact Ht.
Qed.

Lemma define_names_cons (line : string) (rest : list string) :
  define_names (line :: rest)
  = if is_define line then function_name line :: define_names rest
    else define_names rest.
Proof. unfold define_names. simpl. now destruct (is_define line). Qed.

(** The lines after a function-definition line, up to the end of the input:
    nothing is lost as long as every block is closed in time and the names
    are usable and new. *)
Lemma parse_region (rest : list string) :
  forall (st : parse_state) (f : string),
    current_func st = Some f ->
    f <> EmptyString ->
    ~ In f (dict_keys (functions st)) ->
    Forall usable_name (define_names rest) ->
    NoDup (define_names rest) ->
    ~ In (Ok f) (define_names rest) ->
    (forall g, In g (dict_keys (functions st)) ->
               ~ In (Ok g) (define_names rest)) ->
    blocks_closed (truthy_list (current_block st)) rest = true ->
    exists st',
      parse_lines st rest = Ok st'
      /\ model_lines (store_current st')
         = model_lines (functions st) ++ List.concat (current_blocks st)
           ++ current_block st ++ filter kept_line rest.
Proof.
  induction rest as [| l rest IH];
    intros st f Hcf Hf Hfresh Huse Hnd Hnf Hkeys Hclosed.
  - exists st. split; [reflexivity |]. cbn in Hclosed.
    apply negb_true_iff, truthy_list_false in Hclosed.
    unfold store_current. rewrite Hcf. cbn [truthy_opt_str].
    destruct (String.eqb_spec f "") as [-> | _]; [contradiction |]. cbn [negb].
    rewrite dict_set_fresh by exact Hfresh.
    rewrite model_lines_snoc, Hclosed. cbn. now rewrite app_nil_r.
  - rewrite define_names_cons in Huse, Hnd, Hnf, Hkeys.
    cbn [blocks_closed] in Hclosed. cbn [filter parse_lines].
    destruct (is_define l) eqn:Hd.
    + apply andb_true_iff in Hclosed as [Hopen Hclosed].
      apply negb_true_iff, truthy_list_false in Hopen.
      inversion Huse as [| r rs [g [Hg Hgne]] Huse']; subst r rs.
      inversion Hnd as [| r rs Hgnew Hnd']; subst r rs.
      rewrite Hg in *.
      assert (Hl : parse_line st l
                   = Ok (mkParse (functions st ++ [(f, current_blocks st)])
                                 (Some g) [] [l])).
      { unfold parse_line. unfold is_define in Hd. rewrite Hd, Hg. cbn [bind].
        unfold store_current. rewrite Hcf. cbn [truthy_opt_str].
        destruct (String.eqb_spec f "") as [-> | _]; [contradiction |].
        cbn [negb]. now rewrite dict_set_fresh by exact Hfresh. }
      rewrite Hl. cbn [bind].
      destruct (IH (mkParse (functions st ++ [(f, current_blocks st)])
                            (Some g) [] [l]) g) as (st' & Hp & Hm);
        try assumption; try reflexivity.
      * cbn. unfold dict_keys. rewrite map_app. cbn. intros Hin.
        apply in_app_or in Hin as [Hin | [Hin | []]].
        -- apply (Hkeys g Hin). now left.
        -- apply Hnf. left. now rewrite Hin.
      * cbn. unfold dict_keys. rewrite map_app. cbn. intros g' Hin Hin'.
        apply in_app_or in Hin as [Hin | [Hin | []]].
        -- apply (Hkeys g' Hin). now right.
        -- apply Hnf. right. now rewrite Hin.
      * exists st'. split; [exact Hp |]. rewrite Hm.
        cbn [functions current_blocks current_block List.concat].
        rewrite model_lines_snoc, Hopen.
        unfold kept_line. rewrite Hd. cbn [orb app].
        now rewrite <- app_assoc.
    + destruct (parse_line_body st l Hd) as (st1 & Hl & Hfs & Hcf1 & Hcat & Hopen).
      rewrite Hl. cbn [bind].
      destruct (IH st1 f) as (st' & Hp & Hm); try assumption;
        try (rewrite Hfs; assumption); try congruence.
      * rewrite Hopen.
        destruct (is_indented l); [destruct (is_comment l) |]; exact Hclosed.
      * exists st'. split; [exact Hp |]. rewrite Hm, Hfs.
        rewrite (app_assoc (List.concat (current_blocks st1))), Hcat.
        destruct (kept_line l); cbn [app]; rewrite <- ?app_assoc;
          cbn [app]; reflexivity.
Qed.

(** The lines before the first function-definition line are dropped. *)
Lemma parse_before_first_define (lines : list string) :
  forall st : parse_state,
    current_func st = None ->
    functions st = [] ->
    Forall usable_name (define_names lines) ->
    NoDup (define_names lines) ->
    blocks_closed false (from_first_define lines) = true ->
    exists st',
      parse_lines st lines = Ok st'
      /\ model_lines (store_current st')
         = filter kept_line (from_first_define lines).
Proof.
  induction lines as [| l lines IH]; intros st Hcf Hfs Huse Hnd Hclosed.
  - exists st. split; [reflexivity |]. unfold store_current.
    now rewrite Hcf, Hfs.
  - rewrite define_names_cons in Huse, Hnd.
    cbn [from_first_define] in *. cbn [parse_lines].
    destruct (is_define l) eqn:Hd.
    + cbn [blocks_closed] in Hclosed. rewrite Hd in Hclosed.
      cbn in Hclosed.
      inversion Huse as [| r rs [g [Hg Hgne]] Huse']; subst r rs.
      inversion Hnd as [| r rs Hgnew Hnd']; subst r rs.
      rewrite Hg in *.
      assert (Hl : parse_line st l = Ok (mkParse [] (Some g) [] [l])).
      { unfold parse_line. unfold is_define in Hd. rewrite Hd, Hg. cbn [bind].
        unfold store_current. now rewrite Hcf, Hfs. }
      rewrite Hl. cbn [bind].
      destruct (parse_region lines (mkParse [] (Some g) [] [l]) g)
        as (st' & Hp & Hm); try assumption; try reflexivity.
      * cbn. tauto.
      * cbn. tauto.
      * exists st'. split; [exact Hp |]. rewrite Hm. cbn.
        unfold kept_line. now rewrite Hd.
    + destruct (parse_line_not_define st l Hd) as (st1 & Hl & Hfs1 & Hcf1).
      rewrite Hl. cbn [bind]. apply IH; try assumption; congruence.
Qed.

(** C9, as stated, fails on the three-line text [define void @f() {],
    [  %1 = alloca i32], [  ret void]: the end of the input closes no block,
    so the model holds the function-definition line alone and the two body
    lines are not recovered. *)
Lemma round_trip_counterexample :
  let content := ("define void @f() {" ++ nl_str ++ "  %1 = alloca i32"
                  ++ nl_str ++ "  ret void")%string in
  parse_ir content = Ok [("f", [["define void @f() {"]])]
  /\ filter kept_line (split nl content)
     = ["define void @f() {"; "  %1 = alloca i32"; "  ret void"]
  /\ ~ (exists fm, parse_ir content = Ok fm
                   /\ model_lines fm = filter kept_line (split nl content)).
Proof.
  cbv zeta. split; [reflexivity |]. split; [reflexivity |].
  intros (fm & Hp & Hm). vm_compute in Hp. injection Hp as <-.
  vm_compute in Hm. discriminate Hm.
Qed.

(** C9, amended: when every function-definition line yields a non-empty
    name, the names are pairwise distinct, and every block is closed by a
    line that is neither indented nor a function-definition line before the
    next function-definition line and before the end of the input, then
    [parse_ir] returns a model whose block contents, concatenated in order,
    are exactly the function-definition lines and the indented non-comment
    lines that follow the first function-definition line, in their original
    order. *)
Theorem round_trip_closed_blocks (content : string) :
  Forall usable_name (define_names (split nl content)) ->
  NoDup (define_names (split nl content)) ->
  blocks_closed false (from_first_define (split nl content)) = true ->
  exists fm,
    parse_ir content = Ok fm
    /\ model_lines fm
       = filter kept_line (from_first_define (split nl content)).
Proof.
  intros Huse Hnd Hclosed. unfold parse_ir.
  destruct (parse_before_first_define (split nl content) parse_init)
    as (st & Hp & Hm); try assumption; try reflexivity.
  rewrite Hp. cbn [bind]. eexists. split; [reflexivity | exact Hm].
Qed.

Lemma round_trip_closed_blocks_witness :
  exists fm,
    parse_ir ("; two functions" ++ nl_str
              ++ "define void @f() {" ++ nl_str
              ++ "  %1 = alloca i32" ++ nl_str
              ++ "  ; a comment" ++ nl_str
              ++ "  ret void" ++ nl_str
              ++ "}" ++ nl_str
              ++ "define i32 @g(i32 %x) {" ++ nl_str
              ++ "  ret i32 %x" ++ nl_str
              ++ "}" ++ nl_str) = Ok fm
    /\ model_lines fm
       = ["define void @f() {"; "  %1 = alloca i32"; "  ret void";
          "define i32 @g(i32 %x) {"; "  ret i32 %x"].
Proof.
  apply (round_trip_closed_blocks
           ("; two functions" ++ nl_str
            ++ "define void @f() {" ++ nl_str
            ++ "  %1 = alloca i32" ++ nl_str
            ++ "  ; a comment" ++ nl_str
            ++ "  ret void" ++ nl_str
            ++ "}" ++ nl_str
            ++ "define i32 @g(i32 %x) {" ++ nl_str
            ++ "  ret i32 %x" ++ nl_str
            ++ "}" ++ nl_str)).
  - change (Forall usable_name [Ok "f"; Ok "g"]).
    repeat constructor; eexists; (split; [reflexivity | discriminate]).
  - change (NoDup [@Ok string "f"; Ok "g"]).
    repeat constructor; cbn; intuition discriminate.
  - reflexivity.
Defined.

End Parser.

(** ** difflib: the index [b2j] *)

Section ChainB.

(** The positions of [x] in [elts], counted from [i], in increasing order. *)
Fixpoint positions_from (i : nat) (elts : list string) (x : string)
  : list nat :=
  match elts with
  | [] => []
  | e :: rest =>
      if String.eqb e x then i :: positions_from (S i) rest x
      else positions_from (S i) rest x
  end.

Lemma in_positions_from (elts : list string) (x : string) :
  forall i j,
    In j (positions_from i elts x)
    <-> i <= j /\ nth_error elts (j - i) = Some x.
Proof.
  induction elts as [| e rest IH]; intros i j; cbn [positions_from].
  - split; [intros [] | intros [_ H]]. now destruct (j - i).
  - assert (Hrest : In j (positions_from (S i) rest x)
                    <-> i <= j /\ j <> i /\ nth_error (e :: rest) (j - i) = Some x).
    { rewrite IH. split.
      - intros [Hle Hn]. repeat split; try lia.
        replace (j - i) with (S (j - S i)) by lia. exact Hn.
      - intros (Hle & Hne & Hn). split; [lia |].
        replace (j - i) with (S (j - S i)) in Hn by lia. exact Hn. }
    destruct (String.eqb_spec e x) as [-> | Hne].
    + cbn [In]. rewrite Hrest. split.
      * intros [<- | (Hle & _ & Hn)]; [| tauto].
        split; [lia |]. now rewrite Nat.sub_diag.
      * intros [Hle Hn]. destruct (Nat.eq_dec i j) as [-> | Hij];
          [now left | right]. repeat split; auto.
    + rewrite Hrest. split; [tauto |]. intros [Hle Hn].
      repeat split; auto. intros ->. rewrite Nat.sub_diag in Hn. cbn in Hn.
      congruence.
Qed.

Lemma positions_from_sorted (elts : list string) (x : string) :
  forall i, StronglySorted lt (positions_from i elts x).
Proof.
  induction elts as [| e rest IH]; intros i; cbn [positions_from];
    [constructor |].
  destruct (String.eqb e x); [| apply IH].
  constructor; [apply IH |].
  apply Forall_forall. intros j Hj. apply in_positions_from in Hj. lia.
Qed.

Lemma dict_get_b2j_add (d : list (string * list nat)) (i : nat)
  (elt x : string) :
  dict_get String.eqb (Difflib.b2j_add d i elt) x
  = if String.eqb elt x
    then Some (match dict_get String.eqb d x with
               | Some l => l ++ [i]
               | None => [i]
               end)
    else dict_get String.eqb d x.
Proof.
  unfold Difflib.b2j_add. destruct (String.eqb_spec elt x) as [-> | Hne].
  - destruct (dict_get String.eqb d x); apply dict_get_set_same.
  - destruct (dict_get String.eqb d elt); now apply dict_get_set_other.
Qed.

(** What the loop of [__chain_b] stores under a key. *)
Lemma dict_get_chain_loop (elts : list string) (x : string) :
  forall d i,
    dict_get String.eqb (Difflib.chain_loop d i elts) x
    = match dict_get String.eqb d x, positions_from i elts x with
      | Some l, ps => Some (l ++ ps)
      | None, [] => None
      | None, ps => Some ps
      end.
Proof.
  induction elts as [| e rest IH]; intros d i;
    cbn [Difflib.chain_loop positions_from].
  - destruct (dict_get String.eqb d x); [now rewrite app_nil_r | reflexivity].
  - rewrite IH, dict_get_b2j_add.
    destruct (String.eqb e x).
    + destruct (dict_get String.eqb d x); [now rewrite <- app_assoc | reflexivity].
    + reflexivity.
Qed.

Lemma dict_get_filter_key {V : Type} (p : string -> bool)
  (d : list (string * V)) (x : string) :
  dict_get String.eqb (filter (fun kv => p (fst kv)) d) x
  = if p x then dict_get String.eqb d x else None.
Proof.
  induction d as [| [k v] d IH]; cbn [filter dict_get fst].
  - now destruct (p x).
  - destruct (p k) eqn:Hk; cbn [dict_get].
    + destruct (String.eqb_spec k x) as [-> | _]; [now rewrite Hk | exact IH].
    + rewrite IH. destruct (String.eqb_spec k x) as [-> | _];
        [now rewrite Hk | reflexivity].
Qed.

(** Under a key that survived the purge of popular elements, [b2j] holds the
    positions of that element in [b], in increasing order. *)
Lemma b2j_positions (b : list string) (x : string) (js : list nat) :
  dict_get String.eqb (Difflib.b2j b) x = Some js ->
  js = positions_from 0 b x.
Proof.
  unfold Difflib.b2j.
  rewrite (dict_get_filter_key
             (fun k => negb (existsb (String.eqb k)
                               (Difflib.popular_of b (Difflib.chain_loop [] 0 b))))).
  destruct (negb _); [| discriminate].
  rewrite dict_get_chain_loop. cbn [dict_get].
  destruct (positions_from 0 b x); congruence.
Qed.

End ChainB.

(** ** difflib: a sequence compared with itself *)

Section SameSequences.

Variable a : list string.

(** [x] is a key of [b2j] (it is neither junk nor popular). *)
Definition is_key (x : string) : bool :=
  match dict_get String.eqb (Difflib.b2j a) x with
  | Some _ => true
  | None => false
  end.

(** Row [i] of the search meets column [j]: [a[i] == a[j]], a key. *)
Definition hit (i j : nat) : bool :=
  match nth_error a i, nth_error a j with
  | Some x, Some y => String.eqb x y && is_key x
  | _, _ => false
  end.

(** Length of the longest run of keys ending at [a[i]] and [a[j]] on which
    the two copies agree: the number [find_longest_match] keeps in
    [j2len[j]] while it is at row [i]. *)
Fixpoint run (i j : nat) : nat :=
  if hit i j
  then S (match i, j with
          | S i', S j' => run i' j'
          | _, _ => 0
          end)
  else 0.

Lemma run_unfold (i j : nat) :
  run i j = if hit i j
            then S (match i, j with
                    | S i', S j' => run i' j'
                    | _, _ => 0
                    end)
            else 0.
Proof. destruct i; reflexivity. Qed.

Lemma hit_sym (i j : nat) : hit i j = hit j i.
Proof.
  unfold hit. destruct (nth_error a i) as [x |], (nth_error a j) as [y |];
    try reflexivity.
  destruct (String.eqb_spec x y) as [-> | Hne].
  - now rewrite String.eqb_refl.
  - destruct (String.eqb_spec y x) as [-> | _]; [contradiction | reflexivity].
Qed.

Lemma hit_diag (i j : nat) : hit i j = true -> hit i i = true.
Proof.
  unfold hit. destruct (nth_error a i) as [x |]; [| discriminate].
  destruct (nth_error a j) as [y |]; [| discriminate].
  intros H. apply andb_true_iff in H as [_ Hk].
  now rewrite String.eqb_refl, Hk.
Qed.

Lemma hit_lt (i j : nat) : hit i j = true -> j < List.length a.
Proof.
  unfold hit. destruct (nth_error a i) as [x |]; [| discriminate].
  destruct (nth_error a j) as [y |] eqn:E; [| discriminate].
  intros _. apply nth_error_Some. congruence.
Qed.

Lemma run_sym (i : nat) : forall j, run i j = run j i.
Proof.
  induction i as [| i IH]; intros j; rewrite (run_unfold _ j), (run_unfold j);
    rewrite (hit_sym j); destruct (hit _ j); try reflexivity.
  - now destruct j.
  - destruct j; [reflexivity |]. now rewrite IH.
Qed.

Lemma run_le_diag (i : nat) : forall j, run i j <= run i i.
Proof.
  induction i as [| i IH]; intros j; rewrite (run_unfold _ j);
    destruct (hit _ j) eqn:Hh; try lia;
    rewrite (run_unfold _ _), (hit_diag _ _ Hh).
  - lia.
  - destruct j; [lia |]. specialize (IH j). lia.
Qed.

Lemma run_diag_le (i : nat) : run i i <= S i.
Proof.
  induction i as [| i IH]; rewrite run_unfold; destruct (hit _ _); lia.
Qed.

(** The columns visited at row [i] are the columns the row meets. *)
Lemma in_b2j_get_at (i j : nat) :
  In j (Difflib.b2j_get_at a a i) <-> hit i j = true.
Proof.
  unfold Difflib.b2j_get_at, hit, is_key.
  destruct (nth_error a i) as [x |]; [| now split].
  destruct (dict_get String.eqb (Difflib.b2j a) x) as [js |] eqn:E.
  - rewrite (b2j_positions _ _ _ E), in_positions_from, Nat.sub_0_r.
    split.
    + intros [_ ->]. now rewrite String.eqb_refl.
    + destruct (nth_error a j) as [y |]; [| discriminate].
      intros H. apply andb_true_iff in H as [H _].
      apply String.eqb_eq in H. subst y. split; [lia | reflexivity].
  - split; [intros [] |]. destruct (nth_error a j); [| discriminate].
    now rewrite andb_false_r.
Qed.

Lemma b2j_get_at_sorted (i : nat) :
  StronglySorted lt (Difflib.b2j_get_at a a i).
Proof.
  unfold Difflib.b2j_get_at.
  destruct (nth_error a i) as [x |]; [| constructor].
  destruct (dict_get String.eqb (Difflib.b2j a) x) as [js |] eqn:E;
    [| constructor].
  rewrite (b2j_positions _ _ _ E). apply positions_from_sorted.
Qed.

(** [j2len.get(j, 0)] *)
Definition j2len_at (j2len : list (nat * nat)) (j : nat) : nat :=
  match dict_get Nat.eqb j2len j with
  | Some k => k
  | None => 0
  end.

Lemma j2len_at_set (j2len : list (nat * nat)) (j k j' : nat) :
  j2len_at (dict_set Nat.eqb j2len j k) j'
  = if j =? j' then k else j2len_at j2len j'.
Proof.
  unfold j2len_at. induction j2len as [| [j0 k0] d IH]; cbn [dict_set dict_get].
  - now destruct (j =? j').
  - destruct (Nat.eqb_spec j0 j) as [-> | Hne]; cbn [dict_get].
    + now destruct (j =? j').
    + destruct (Nat.eqb_spec j0 j') as [-> | Hne'].
      * destruct (Nat.eqb_spec j j'); [congruence | reflexivity].
      * exact IH.
Qed.

(** Before row [i], [j2len] holds the runs of row [i - 1]. *)
Definition rows_done (i : nat) (j2len : list (nat * nat)) : Prop :=
  forall j, j2len_at j2len j = match i with
                               | 0 => 0
                               | S i' => run i' j
                               end.

Lemma new_length_is_run (i j : nat) (j2len : list (nat * nat)) :
  rows_done i j2len -> hit i j = true ->
  Difflib.j2lenget_pred j2len j + 1 = run i j.
Proof.
  intros HJ Hh. rewrite run_unfold, Hh. unfold Difflib.j2lenget_pred.
  destruct j as [| j'].
  - destruct i; reflexivity.
  - fold (j2len_at j2len j'). rewrite (HJ j'). destruct i; lia.
Qed.

(** The best match so far lies on the diagonal, ends at or before row [i],
    and is at least as long as every diagonal run of the rows above. *)
Definition best_on_diagonal (i : nat) (best : Difflib.block) : Prop :=
  let '(besti, bestj, bestsize) := best in
  besti = bestj /\ besti + bestsize <= i
  /\ forall r, r < i -> run r r <= bestsize.

(** The inner loop at row [i], with the columns still to visit. *)
Lemma flm_inner_same (i : nat) (j2len : list (nat * nat)) :
  rows_done i j2len ->
  forall (js : list nat) (newj2len : list (nat * nat))
         (besti bestj bestsize : nat),
    (forall j, In j js -> hit i j = true) ->
    StronglySorted lt js ->
    besti = bestj ->
    besti + bestsize <= S i ->
    (forall r, r < i -> run r r <= bestsize) ->
    In i js \/ run i i <= bestsize ->
    exists newj2len' best',
      Difflib.flm_inner j2len i 0 (List.length a) js newj2len
        (besti, bestj, bestsize) = (newj2len', best')
      /\ best_on_diagonal (S i) best'
      /\ forall j, j2len_at newj2len' j
                   = if existsb (Nat.eqb j) js then run i j
                     else j2len_at newj2len j.
Proof.
  intros HJ. induction js as [| j js IH];
    intros newj2len besti bestj bestsize Hhit Hsort Hdiag Hend Habove Hrow.
  - exists newj2len, (besti, bestj, bestsize). split; [reflexivity |].
    split; [| reflexivity]. cbn. repeat split; auto.
    intros r Hr. destruct (Nat.eq_dec r i) as [-> | Hne].
    + destruct Hrow as [[] | Hrow]; exact Hrow.
    + apply Habove. lia.
  - cbn [Difflib.flm_inner].
    assert (Hj : hit i j = true) by (apply Hhit; now left).
    pose proof (hit_lt _ _ Hj) as Hjn.
    change (j <? 0) with false. cbn iota.
    destruct (Nat.leb_spec (List.length a) j) as [Hge | _]; [lia |].
    rewrite (new_length_is_run i j j2len HJ Hj).
    inversion Hsort as [| j0 js0 Hsort' Hall]; subst j0 js0.
    assert (Hnew : forall j', j2len_at (dict_set Nat.eqb newj2len j (run i j)) j'
                   = if j =? j' then run i j else j2len_at newj2len j')
      by (intros; apply j2len_at_set).
    assert (Hstep : forall (b1 b2 b3 : nat) (nj1 : list (nat * nat)) (bl : Difflib.block),
               Difflib.flm_inner j2len i 0 (List.length a) js
                 (dict_set Nat.eqb newj2len j (run i j)) (b1, b2, b3) = (nj1, bl) ->
               (forall j', j2len_at nj1 j'
                           = if existsb (Nat.eqb j') js then run i j'
                             else j2len_at (dict_set Nat.eqb newj2len j (run i j)) j') ->
               forall j', j2len_at nj1 j'
                          = if existsb (Nat.eqb j') (j :: js) then run i j'
                            else j2len_at newj2len j').
    { intros b1 b2 b3 nj1 bl _ Hnj j'. rewrite Hnj, Hnew. cbn [existsb].
      destruct (Nat.eqb_spec j' j) as [-> | Hne].
      - rewrite Nat.eqb_refl. now destruct (existsb _ js).
      - cbn [orb]. destruct (existsb _ js); [reflexivity |].
        destruct (Nat.eqb_spec j j'); [congruence | reflexivity]. }
    destruct (Nat.ltb_spec bestsize (run i j)) as [Hlt | Hle].
    + (* the best match is replaced: only on the diagonal *)
      assert (Hji : j = i).
      { destruct (Nat.lt_trichotomy j i) as [Hlo | [Heq | Hhi]]; [| exact Heq |].
        - exfalso. pose proof (Habove j Hlo) as H1.
          pose proof (run_le_diag j i) as H2. rewrite (run_sym i j) in Hlt. lia.
        - exfalso. destruct Hrow as [[Heq | Hin] | Hrow]; [lia | |].
          + rewrite Forall_forall in Hall. specialize (Hall i Hin). lia.
          + pose proof (run_le_diag i j). lia. }
      subst j. pose proof (run_diag_le i) as Hk.
      destruct (IH (dict_set Nat.eqb newj2len i (run i i))
                   (i + 1 - run i i) (i + 1 - run i i) (run i i))
        as (nj1 & bl & Hrun & Hbest & Hnj); auto; try lia.
      * intros j' Hj'. apply Hhit. now right.
      * intros r Hr. specialize (Habove r Hr). lia.
      * exists nj1, bl. split; [exact Hrun |]. split; [exact Hbest |].
        eapply Hstep; eassumption.
    + destruct (IH (dict_set Nat.eqb newj2len j (run i j)) besti bestj bestsize)
        as (nj1 & bl & Hrun & Hbest & Hnj); auto.
      * intros j' Hj'. apply Hhit. now right.
      * destruct Hrow as [[Heq | Hin] | Hrow]; [| now left | now right].
        right. now subst j.
      * exists nj1, bl. split; [exact Hrun |]. split; [exact Hbest |].
        eapply Hstep; eassumption.
Qed.

(** One row of the search. *)
Lemma flm_row_same (i : nat) (j2len : list (nat * nat)) (best : Difflib.block) :
  rows_done i j2len ->
  best_on_diagonal i best ->
  exists newj2len best',
    Difflib.flm_inner j2len i 0 (List.length a) (Difflib.b2j_get_at a a i) []
      best = (newj2len, best')
    /\ rows_done (S i) newj2len
    /\ best_on_diagonal (S i) best'.
Proof.
  intros HJ Hbest. destruct best as [[besti bestj] bestsize].
  destruct Hbest as (Hdiag & Hend & Habove).
  destruct (flm_inner_same i j2len HJ (Difflib.b2j_get_at a a i) []
              besti bestj bestsize)
    as (nj & bl & Hrun & Hb & Hnj); auto.
  - intros j. apply in_b2j_get_at.
  - apply b2j_get_at_sorted.
  - destruct (hit i i) eqn:Hh.
    + left. now apply in_b2j_get_at.
    + right. rewrite run_unfold, Hh. lia.
  - exists nj, bl. split; [exact Hrun |]. split; [| exact Hb].
    intros j. rewrite Hnj.
    destruct (existsb (Nat.eqb j) (Difflib.b2j_get_at a a i)) eqn:E;
      [reflexivity |].
    unfold j2len_at. cbn [dict_get].
    rewrite run_unfold. destruct (hit i j) eqn:Hh; [| reflexivity].
    apply in_b2j_get_at in Hh.
    assert (existsb (Nat.eqb j) (Difflib.b2j_get_at a a i) = true).
    { apply existsb_exists. exists j. split; [exact Hh | apply Nat.eqb_refl]. }
    congruence.
Qed.

(** The whole search over rows [i], [i + 1], ... *)
Lemma flm_outer_same (len : nat) :
  forall (i : nat) (j2len : list (nat * nat)) (best : Difflib.block),
    rows_done i j2len ->
    best_on_diagonal i best ->
    best_on_diagonal (i + len)
      (Difflib.flm_outer a a 0 (List.length a) (seq i len) j2len best).
Proof.
  induction len as [| len IH]; intros i j2len best HJ Hbest;
    cbn [seq Difflib.flm_outer].
  - now rewrite Nat.add_0_r.
  - destruct (flm_row_same i j2len best HJ Hbest) as (nj & bl & -> & HJ' & Hb').
    replace (i + S len) with (S i + len) by lia. now apply IH.
Qed.

End SameSequences.

(** ** difflib: the queue of [get_matching_blocks] runs empty *)

Section Termination.

Variables a b : list string.

Lemma j2lenget_pred_le (j2len : list (nat * nat)) (bound j : nat) :
  (forall j', j2len_at j2len j' <= bound) ->
  Difflib.j2lenget_pred j2len j <= bound.
Proof.
  intros H. unfold Difflib.j2lenget_pred. destruct j as [| j']; [lia |].
  apply (H j').
Qed.

(** The inner loop keeps the best match inside rows [alo .. i]. *)
Lemma flm_inner_bounds (alo i blo bhi : nat) (j2len : list (nat * nat)) :
  alo <= i ->
  (forall j, j2len_at j2len j <= i - alo) ->
  forall (js : list nat) (newj2len : list (nat * nat))
         (besti bestj bestsize : nat),
    (forall j, j2len_at newj2len j <= S i - alo) ->
    alo <= besti ->
    besti + bestsize <= S i ->
    exists newj2len' besti' bestj' bestsize',
      Difflib.flm_inner j2len i blo bhi js newj2len (besti, bestj, bestsize)
      = (newj2len', (besti', bestj', bestsize'))
      /\ (forall j, j2len_at newj2len' j <= S i - alo)
      /\ alo <= besti'
      /\ besti' + bestsize' <= S i.
Proof.
  intros Hi HJ. induction js as [| j js IH];
    intros newj2len besti bestj bestsize Hnj Hlo Hhi; cbn [Difflib.flm_inner].
  - now exists newj2len, besti, bestj, bestsize.
  - destruct (j <? blo); [now apply IH |].
    destruct (bhi <=? j); [now exists newj2len, besti, bestj, bestsize |].
    pose proof (j2lenget_pred_le j2len (i - alo) j HJ) as Hk.
    assert (Hnj' : forall j',
               j2len_at (dict_set Nat.eqb newj2len j
                           (Difflib.j2lenget_pred j2len j + 1)) j'
               <= S i - alo).
    { intros j'. rewrite j2len_at_set. destruct (j =? j'); [lia | apply Hnj]. }
    destruct (bestsize <? Difflib.j2lenget_pred j2len j + 1).
    + apply IH; [exact Hnj' | lia | lia].
    + now apply IH.
Qed.

Lemma flm_outer_bounds (alo blo bhi : nat) (len : nat) :
  forall (i : nat) (j2len : list (nat * nat)) (besti bestj bestsize : nat),
    alo <= i ->
    (forall j, j2len_at j2len j <= i - alo) ->
    alo <= besti ->
    besti + bestsize <= i ->
    exists besti' bestj' bestsize',
      Difflib.flm_outer a b blo bhi (seq i len) j2len (besti, bestj, bestsize)
      = (besti', bestj', bestsize')
      /\ alo <= besti'
      /\ besti' + bestsize' <= i + len.
Proof.
  induction len as [| len IH]; intros i j2len besti bestj bestsize Hi HJ Hlo Hhi;
    cbn [seq Difflib.flm_outer].
  - exists besti, bestj, bestsize. repeat split; lia.
  - destruct (flm_inner_bounds alo i blo bhi j2len Hi HJ
                (Difflib.b2j_get_at a b i) [] besti bestj bestsize)
      as (nj & bi & bj & bs & -> & Hnj & Hlo' & Hhi'); try lia.
    { intros j. unfold j2len_at. cbn. lia. }
    destruct (IH (S i) nj bi bj bs) as (bi' & bj' & bs' & -> & Hlo'' & Hhi'');
      try lia; [exact Hnj |].
    exists bi', bj', bs'. repeat split; lia.
Qed.

Lemma extend_left_bounds (junk : bool) (alo blo : nat) (besti : nat) :
  forall bestj bestsize,
    alo <= besti ->
    exists besti' bestj',
      Difflib.extend_left a b junk alo blo besti bestj bestsize
      = (besti', bestj', besti + bestsize - besti')
      /\ alo <= besti' /\ besti' <= besti.
Proof.
  induction besti as [| besti IH]; intros bestj bestsize Hlo;
    cbn [Difflib.extend_left].
  - exists 0, bestj. repeat split; try lia. f_equal. lia.
  - destruct (Nat.ltb_spec alo (S besti)) as [Hlt | Hge]; cbn [andb].
    + destruct ((blo <? bestj)
                && Difflib.same_at a b junk (S besti - 1) (bestj - 1)).
      * destruct (IH (bestj - 1) (bestsize + 1)) as (bi' & bj' & -> & H1 & H2);
          [lia |].
        exists bi', bj'. repeat split; try lia. f_equal. lia.
      * exists (S besti), bestj. repeat split; try lia. f_equal. lia.
    + exists (S besti), bestj. repeat split; try lia. f_equal. lia.
Qed.

Lemma extend_right_bounds (junk : bool) (ahi bhi besti bestj : nat) (gap : nat) :
  forall bestsize,
    besti + bestsize <= ahi ->
    bestsize
    <= Difflib.extend_right a b junk gap ahi bhi besti bestj bestsize
    /\ besti + Difflib.extend_right a b junk gap ahi bhi besti bestj bestsize
       <= ahi.
Proof.
  induction gap as [| gap IH]; intros bestsize Hhi; cbn [Difflib.extend_right];
    [lia |].
  destruct (Nat.ltb_spec (besti + bestsize) ahi) as [Hlt | Hge]; cbn [andb];
    [| lia].
  destruct ((bestj + bestsize <? bhi)
            && Difflib.same_at a b junk (besti + bestsize) (bestj + bestsize));
    [| lia].
  specialize (IH (bestsize + 1)). lia.
Qed.

(** The match found in a region lies inside the region. *)
Lemma find_longest_match_bounds (alo ahi blo bhi : nat) :
  alo <= ahi ->
  exists i j k,
    Difflib.find_longest_match a b alo ahi blo bhi = (i, j, k)
    /\ alo <= i /\ i + k <= ahi.
Proof.
  intros Hle. unfold Difflib.find_longest_match.
  destruct (flm_outer_bounds alo blo bhi (ahi - alo) alo [] alo blo 0)
    as (bi & bj & bs & -> & H1 & H2); try lia.
  { intros j. unfold j2len_at. cbn. lia. }
  destruct (extend_left_bounds false alo blo bi bj bs H1)
    as (bi1 & bj1 & -> & H3 & H4).
  pose proof (extend_right_bounds false ahi bhi bi1 bj1
                (ahi - (bi1 + (bi + bs - bi1))) (bi + bs - bi1)) as H5.
  set (s2 := Difflib.extend_right a b false _ ahi bhi bi1 bj1 _) in *.
  destruct (extend_left_bounds true alo blo bi1 bj1 s2 H3)
    as (bi3 & bj3 & -> & H6 & H7).
  pose proof (extend_right_bounds true ahi bhi bi3 bj3
                (ahi - (bi3 + (bi1 + s2 - bi3))) (bi1 + s2 - bi3)) as H8.
  eexists; eexists; eexists. split; [reflexivity |]. lia.
Qed.

(** What a region still costs: twice its height and one. *)
Definition region_weight (r : Difflib.region) : nat :=
  let '(alo, ahi, _, _) := r in 2 * (ahi - alo) + 1.

Definition region_ok (r : Difflib.region) : Prop :=
  let '(alo, ahi, _, _) := r in alo <= ahi.

Definition queue_weight (queue : list Difflib.region) : nat :=
  list_sum (map region_weight queue).

Lemma queue_weight_cons (alo ahi blo bhi : nat) (queue : list Difflib.region) :
  queue_weight ((alo, ahi, blo, bhi) :: queue)
  = 2 * (ahi - alo) + 1 + queue_weight queue.
Proof. reflexivity. Qed.

Lemma mb_loop_enough (fuel : nat) :
  forall (queue : list Difflib.region) (matching_blocks : list Difflib.block),
    Forall region_ok queue ->
    queue_weight queue <= fuel ->
    exists l, Difflib.mb_loop a b fuel queue matching_blocks = Some l.
Proof.
  induction fuel as [| fuel IH]; intros queue mbs Hok Hw.
  - destruct queue as [| [[[alo ahi] blo] bhi] rest].
    + now exists mbs.
    + rewrite queue_weight_cons in Hw. lia.
  - destruct queue as [| [[[alo ahi] blo] bhi] rest]; [now exists mbs |].
    inversion Hok as [| r rs Hr Hrest]; subst r rs. cbn in Hr.
    rewrite queue_weight_cons in Hw.
    cbn [Difflib.mb_loop].
    destruct (find_longest_match_bounds alo ahi blo bhi Hr)
      as (i & j & k & -> & Hlo & Hhi).
    destruct (Nat.eqb_spec k 0) as [-> | Hk].
    + apply IH; [exact Hrest | lia].
    + apply IH.
      * destruct ((i + k <? ahi) && (j + k <? bhi));
          destruct ((alo <? i) && (blo <? j));
          repeat (constructor; [cbn; lia |]); exact Hrest.
      * destruct ((i + k <? ahi) && (j + k <? bhi));
          destruct ((alo <? i) && (blo <? j));
          rewrite ?queue_weight_cons; lia.
Qed.

(** [mb_fuel] rounds are enough for every pair of sequences: the loop
    [while queue] always runs the queue empty. *)
Lemma mb_loop_terminates :
  exists l,
    Difflib.mb_loop a b (Difflib.mb_fuel a)
      [(0, List.length a, 0, List.length b)] [] = Some l.
Proof.
  apply mb_loop_enough.
  - constructor; [cbn; lia | constructor].
  - rewrite queue_weight_cons. unfold Difflib.mb_fuel, queue_weight.
    cbn [map list_sum fold_right]. lia.
Qed.

End Termination.

(** ** difflib: the diff of a sequence with itself is empty *)

Section SameDiff.

Variable a : list string.

Lemma same_at_diag (i : nat) :
  i < List.length a -> Difflib.same_at a a false i i = true.
Proof.
  intros Hi. unfold Difflib.same_at.
  destruct (nth_error a i) as [x |] eqn:E.
  - cbn. apply String.eqb_refl.
  - apply nth_error_None in E. lia.
Qed.

Lemma extend_left_diag (d : nat) :
  forall size, d <= List.length a ->
    Difflib.extend_left a a false 0 0 d d size = (0, 0, size + d).
Proof.
  induction d as [| d IH]; intros size Hd; cbn [Difflib.extend_left].
  - now rewrite Nat.add_0_r.
  - change (0 <? S d) with true. cbn [andb].
    replace (S d - 1) with d by lia.
    rewrite same_at_diag by lia. rewrite IH by lia. f_equal. lia.
Qed.

Lemma extend_right_diag (gap : nat) :
  forall size, size + gap = List.length a ->
    Difflib.extend_right a a false gap (List.length a) (List.length a) 0 0 size
    = List.length a.
Proof.
  induction gap as [| gap IH]; intros size Hs; cbn [Difflib.extend_right].
  - lia.
  - cbn [Nat.add]. destruct (Nat.ltb_spec size (List.length a)); [| lia].
    cbn [andb]. rewrite same_at_diag by lia. apply IH. lia.
Qed.

Lemma extend_left_at_zero (junk : bool) (alo blo bestj size : nat) :
  Difflib.extend_left a a junk alo blo 0 bestj size = (0, bestj, size).
Proof. reflexivity. Qed.

(** The longest match of a sequence with itself is the whole sequence. *)
Lemma find_longest_match_same :
  Difflib.find_longest_match a a 0 (List.length a) 0 (List.length a)
  = (0, 0, List.length a).
Proof.
  unfold Difflib.find_longest_match. rewrite Nat.sub_0_r.
  pose proof (flm_outer_same a (List.length a) 0 [] (0, 0, 0)) as H.
  destruct (Difflib.flm_outer a a 0 (List.length a) (seq 0 (List.length a)) []
              (0, 0, 0)) as [[besti bestj] bestsize].
  destruct H as (Hdiag & Hend & _).
  - intros j. reflexivity.
  - cbn. repeat split; intros; lia.
  - subst bestj. cbn [Nat.add] in Hend.
    rewrite extend_left_diag by lia.
    rewrite extend_right_diag by lia.
    rewrite extend_left_at_zero. cbn [Nat.add].
    now rewrite Nat.sub_diag.
Qed.

Lemma get_matching_blocks_same :
  Difflib.get_matching_blocks a a
  = match List.length a with
    | 0 => [(0, 0, 0)]
    | S n => [(0, 0, S n); (S n, S n, 0)]
    end.
Proof.
  unfold Difflib.get_matching_blocks, Difflib.mb_fuel.
  replace (2 * List.length a + 1) with (S (2 * List.length a)) by lia.
  cbn [Difflib.mb_loop]. rewrite find_longest_match_same.
  destruct (List.length a) as [| n]; [reflexivity |].
  change (S n =? 0) with false. cbn iota.
  change (0 <? 0) with false. cbn [andb].
  rewrite Nat.add_0_l, Nat.ltb_irrefl. cbn [andb].
  destruct (2 * S n); cbn [Difflib.mb_loop app Difflib.sort_blocks fold_right
                           Difflib.insert_sorted Difflib.collapse];
    reflexivity.
Qed.

Lemma get_opcodes_same :
  Difflib.get_opcodes a a
  = match List.length a with
    | 0 => []
    | S n => [Difflib.mkOp Difflib.Equal 0 (S n) 0 (S n)]
    end.
Proof.
  unfold Difflib.get_opcodes. rewrite get_matching_blocks_same.
  destruct (List.length a) as [| n]; [reflexivity |].
  cbn [Difflib.opcodes_loop]. change (0 <? 0) with false. cbn [andb].
  cbn [Nat.add]. change (S n =? 0) with false. cbn [app].
  rewrite Nat.ltb_irrefl. cbn [andb]. rewrite Nat.add_0_r. reflexivity.
Qed.

(** No group of changes: the one opcode is [equal] and at most [n] long
    after the leading and trailing fix-up. *)
Lemma get_grouped_opcodes_same : Difflib.get_grouped_opcodes a a 3 = [].
Proof.
  unfold Difflib.get_grouped_opcodes. rewrite get_opcodes_same.
  destruct (List.length a) as [| n]; [reflexivity |].
  cbn [truthy_list Difflib.update_first Difflib.update_last
       Difflib.fix_leading Difflib.fix_trailing Difflib.op_tag Difflib.op_i1
       Difflib.op_i2 Difflib.op_j1 Difflib.op_j2 Difflib.tag_eqb
       Difflib.group_loop].
  cbn [andb].
  destruct (Nat.ltb_spec (3 + 3)
              (Nat.min (S n) (Nat.max 0 (S n - 3) + 3) - Nat.max 0 (S n - 3)))
    as [Hlt | _]; [lia |].
  reflexivity.
Qed.

Lemma unified_diff_same (fromfile tofile fromfiledate tofiledate lineterm : string) :
  Difflib.unified_diff a a fromfile tofile fromfiledate tofiledate 3 lineterm
  = [].
Proof.
  unfold Difflib.unified_diff. now rewrite get_grouped_opcodes_same.
Qed.

End SameDiff.

(** ** Line differ and aligner *)

Section Aligner.

Lemma flush_section_prefix (output current_section : list string) :
  exists more, flush_section output current_section = output ++ more.
Proof.
  unfold flush_section. destruct (truthy_list current_section).
  - eexists; reflexivity.
  - exists []. now rewrite app_nil_r.
Qed.

(** The loop over the diff only ever appends to [output]. *)
Lemma sections_loop_prefix (diff : list string) :
  forall output current_section,
  exists more, fst (sections_loop diff output current_section) = output ++ more.
Proof.
  induction diff as [| line diff IH]; intros output current_section;
    cbn [sections_loop].
  - exists []. cbn. now rewrite app_nil_r.
  - destruct (startswith line "@@").
    + destruct (flush_section_prefix output current_section) as (m1 & ->).
      destruct (IH (output ++ m1) []) as (m2 & ->).
      exists (m1 ++ m2). now rewrite app_assoc.
    + apply IH.
Qed.

(** A non-empty unified diff opens with the two file-header lines, followed
    by the marker of the first hunk. *)
Lemma unified_diff_header (a b : list string) :
  Difflib.unified_diff a b "Before" "After" "" "" 3 "" <> [] ->
  exists hunk rest,
    Difflib.unified_diff a b "Before" "After" "" "" 3 ""
    = "--- Before" :: "+++ After" :: hunk :: rest
    /\ startswith hunk "@@" = true.
Proof.
  unfold Difflib.unified_diff.
  destruct (Difflib.get_grouped_opcodes a b 3) as [| g gs]; [congruence |].
  intros _. cbn [flat_map Difflib.group_lines app].
  eexists; eexists. split; reflexivity.
Qed.

Lemma startswith_app (s t : string) : startswith (s ++ t) s = true.
Proof.
  induction s as [| c s IH]; cbn; [now destruct t |].
  now rewrite Ascii.eqb_refl, IH.
Qed.

Lemma startswith_join_head (sep x : string) (rest : list string) :
  startswith (join sep (x :: rest)) x = true.
Proof.
  cbn [join]. destruct rest.
  - rewrite <- (startswith_app x ""). f_equal.
    induction x as [| c x IH]; cbn; [reflexivity | now rewrite <- IH].
  - apply startswith_app.
Qed.

(** C10: when the unified diff of the two texts is not empty, its two header
    lines [--- Before] and [+++ After], which come before the first [@@]
    marker, are taken for a removed and an added line: the first row of the
    side-by-side output pairs [-- Before] with [++ After]. *)
Theorem header_lines_become_first_row (before_text after_text : string) :
  Difflib.unified_diff (readlines before_text) (readlines after_text)
    "Before" "After" "" "" 3 "" <> [] ->
  (exists rest,
     side_by_side_rows before_text after_text = "-- Before | ++ After" :: rest)
  /\ startswith (generate_side_by_side_diff before_text after_text)
       "-- Before | ++ After" = true.
Proof.
  intros Hne.
  assert (Hrows : exists rest,
     side_by_side_rows before_text after_text = "-- Before | ++ After" :: rest).
  { unfold side_by_side_rows.
    destruct (unified_diff_header _ _ Hne) as (hunk & rest & -> & Hh).
    cbn [sections_loop]. rewrite Hh.
    change (startswith "--- Before" "@@") with false.
    change (startswith "+++ After" "@@") with false. cbn iota.
    change (flush_section [] (([] ++ ["--- Before"]) ++ ["+++ After"]))
      with ["-- Before | ++ After"].
    destruct (sections_loop_prefix rest ["-- Before | ++ After"] [])
      as (more & Hmore).
    destruct (sections_loop rest ["-- Before | ++ After"] [])
      as [output current_section].
    cbn [fst] in Hmore.
    destruct (flush_section_prefix output current_section) as (more' & E).
    rewrite E, Hmore. eexists. reflexivity. }
  split; [exact Hrows |].
  destruct Hrows as (rest & Hrows).
  unfold generate_side_by_side_diff. rewrite Hrows.
  apply startswith_join_head.
Qed.

Lemma header_lines_become_first_row_witness :
  exists rest,
    side_by_side_rows ("ret i32 0" ++ nl_str) ("ret i32 1" ++ nl_str)
    = "-- Before | ++ After" :: rest.
Proof.
  apply (header_lines_become_first_row
           ("ret i32 0" ++ nl_str) ("ret i32 1" ++ nl_str)).
  vm_compute. discriminate.
Defined.

(** C7: for identical texts the unified diff is empty, so the side-by-side
    output has no row at all and the function returns the empty string: no
    row pairs a before column with an after column, and every row of the
    output (there is none) is an unchanged line of the text. *)
Theorem identical_texts_no_paired_row (text : string) :
  side_by_side_rows text text = []
  /\ generate_side_by_side_diff text text = ""
  /\ forall row, In row (side_by_side_rows text text) ->
                 exists line, In line (readlines text)
                              /\ row = (" " ++ line)%string.
Proof.
  assert (H : side_by_side_rows text text = []).
  { unfold side_by_side_rows. now rewrite unified_diff_same. }
  split; [exact H |]. split.
  - unfold generate_side_by_side_diff. now rewrite H.
  - rewrite H. intros row [].
Qed.

End Aligner.

(** ** IR parser: what every parsed model looks like *)

Section ParserInvariants.

(** The stripped line passes the test that starts a new block. *)
Definition starts_block (line : string) : bool :=
  startswith (strip line) "%" && negb (startswith (strip line) "%0").

(** A line that may follow the first line of a block: indented, not a
    comment and not the start of a new block. *)
Definition follower (x : string) : Prop :=
  is_indented x = true /\ is_comment x = false /\ starts_block x = false.

Lemma dict_set_keys_in {V : Type} (d : list (string * V)) (k x : string) (v : V) :
  In x (dict_keys (dict_set String.eqb d k v)) -> In x (dict_keys d) \/ x = k.
Proof.
  induction d as [| [k' v'] d IH]; cbn.
  - intros [<- | []]. now right.
  - destruct (String.eqb_spec k' k) as [-> | Hne]; cbn.
    + intros [<- | H]; auto.
    + intros [<- | H]; [auto |]. destruct (IH H); auto.
Qed.

Lemma dict_set_keys_nodup {V : Type} (d : list (string * V)) (k : string) (v : V) :
  NoDup (dict_keys d) -> NoDup (dict_keys (dict_set String.eqb d k v)).
Proof.
  induction d as [| [k' v'] d IH]; cbn; intros H.
  - constructor; [intros [] | constructor].
  - inversion H as [| x xs Hnot Hnd]; subst x xs.
    destruct (String.eqb_spec k' k) as [-> | Hne]; cbn.
    + constructor; assumption.
    + constructor; [| now apply IH].
      intros Hin. apply dict_set_keys_in in Hin as [Hin | ->]; auto.
Qed.

Lemma Forall_dict_set {V : Type} (P : string * V -> Prop)
  (d : list (string * V)) (k : string) (v : V) :
  Forall P d -> P (k, v) -> Forall P (dict_set String.eqb d k v).
Proof.
  induction d as [| [k' v'] d IH]; cbn; intros Hd Hk.
  - now constructor.
  - inversion Hd as [| x xs Hx Hxs]; subst x xs.
    destruct (String.eqb k' k); constructor; auto.
Qed.

(** The lines of the text being parsed. *)
Variable L : list string.

Definition line_ok (x : string) : Prop := In x L /\ kept_line x = true.

Definition block_ok (bl : list string) : Prop :=
  bl <> [] /\ Forall line_ok bl /\ Forall follower (tl bl).

(** [d] is a function-definition line of the text and yields the name [f]. *)
Definition defines (f d : string) : Prop :=
  In d L /\ is_define d = true /\ function_name d = Ok f.

(** The first block of [blocks], if any, opens with a definition of [f]. *)
Definition headed_by (f : string) (blocks : list (list string)) : Prop :=
  match blocks with
  | [] => True
  | bl :: _ => match bl with
               | d :: _ => defines f d
               | [] => False
               end
  end.

Definition entry_ok (kv : string * list (list string)) : Prop :=
  fst kv <> EmptyString
  /\ (exists d, defines (fst kv) d)
  /\ Forall block_ok (snd kv)
  /\ headed_by (fst kv) (snd kv).

Definition model_ok (fm : function_model) : Prop :=
  NoDup (dict_keys fm) /\ Forall entry_ok fm.

(** What holds of the local variables of [parse_ir] after every line. *)
Definition state_ok (st : parse_state) : Prop :=
  model_ok (functions st)
  /\ Forall block_ok (current_blocks st)
  /\ Forall line_ok (current_block st)
  /\ Forall follower (tl (current_block st))
  /\ match current_func st with
     | None => True
     | Some f =>
         (exists d, defines f d)
         /\ match current_blocks st with
            | [] => match current_block st with
                    | d :: _ => defines f d
                    | [] => False
                    end
            | _ :: _ => headed_by f (current_blocks st)
            end
     end.

Lemma headed_by_snoc (f : string) (blocks : list (list string))
  (bl : list string) :
  blocks <> [] -> headed_by f blocks -> headed_by f (blocks ++ [bl]).
Proof. destruct blocks; [congruence | auto]. Qed.

Lemma store_current_ok (st : parse_state) :
  state_ok st -> model_ok (store_current st).
Proof.
  intros (Hm & Hbs & _ & _ & Hf). unfold store_current.
  destruct (current_func st) as [f |]; [| exact Hm].
  cbn [truthy_opt_str]. destruct (String.eqb_spec f "") as [-> | Hne];
    cbn [negb]; [exact Hm |].
  destruct Hm as [Hnd Hall]. destruct Hf as [Hd Hhead]. split.
  - now apply dict_set_keys_nodup.
  - apply Forall_dict_set; [exact Hall |].
    repeat split; cbn [fst snd]; auto.
    destruct (current_blocks st); [exact I | exact Hhead].
Qed.

Lemma flush_block_ok (st : parse_state) :
  state_ok st -> Forall block_ok (flush_block st).
Proof.
  intros (_ & Hbs & Hb & Hfol & _). unfold flush_block.
  destruct (current_block st) as [| x xs] eqn:E; cbn [truthy_list]; [exact Hbs |].
  apply Forall_app. split; [exact Hbs |]. constructor; [| constructor].
  repeat split; auto. discriminate.
Qed.

Lemma flush_block_headed (st : parse_state) (f : string) :
  match current_blocks st with
  | [] => match current_block st with
          | d :: _ => defines f d
          | [] => False
          end
  | _ :: _ => headed_by f (current_blocks st)
  end ->
  exists bl rest, flush_block st = bl :: rest /\ headed_by f (bl :: rest).
Proof.
  unfold flush_block.
  destruct (current_blocks st) as [| b bs]; destruct (current_block st) as [| d ds];
    cbn; intros H; try contradiction; eauto.
Qed.

(** One line keeps [state_ok]. *)
Lemma parse_line_ok (st st' : parse_state) (line : string) :
  In line L -> state_ok st -> parse_line st line = Ok st' -> state_ok st'.
Proof.
  intros Hin Hst. pose proof Hst as (Hm & Hbs & Hb & Hfol & Hf).
  unfold parse_line.
  destruct (startswith line "define") eqn:Hd.
  - destruct (function_name line) as [name |] eqn:Hn; cbn [bind];
      [| discriminate].
    intros H; injection H as <-.
    assert (Hdef : defines name line) by (repeat split; assumption).
    unfold state_ok.
    cbn [functions current_blocks current_block current_func tl].
    split; [apply (store_current_ok st Hst) |].
    split; [constructor |].
    split.
    { constructor; [| constructor]. split; [exact Hin |].
      unfold kept_line, is_define. now rewrite Hd. }
    split; [constructor |].
    split; [now exists line | exact Hdef].
  - destruct (startswith line "  ") eqn:Hi.
    + destruct (startswith (strip line) ";") eqn:Hc.
      * intros H; injection H as <-. exact Hst.
      * assert (Hline : line_ok line).
        { split; [exact Hin |].
          unfold kept_line, is_define, is_indented, is_comment.
          now rewrite Hd, Hi, Hc. }
        destruct (startswith (strip line) "%"
                  && negb (startswith (strip line) "%0")) eqn:Hs;
          intros H; injection H as <-; unfold state_ok;
          cbn [functions current_blocks current_block current_func tl].
        -- split; [exact Hm |].
           split; [apply (flush_block_ok st Hst) |].
           split; [now constructor |].
           split; [constructor |].
           destruct (current_func st) as [f |]; [| exact I].
           destruct Hf as [Hex Hhead]. split; [exact Hex |].
           destruct (flush_block_headed st f Hhead) as (bl & rest & -> & Hh).
           exact Hh.
        -- split; [exact Hm |].
           split; [exact Hbs |].
           split; [apply Forall_app; split; [exact Hb | now constructor] |].
           split.
           { destruct (current_block st) as [| d ds]; cbn; [constructor |].
             cbn in Hfol. apply Forall_app. split; [exact Hfol |].
             constructor; [| constructor].
             unfold follower, is_indented, is_comment, starts_block.
             now rewrite Hi, Hc, Hs. }
           destruct (current_func st) as [f |]; [| exact I].
           destruct Hf as [Hex Hhead]. split; [exact Hex |].
           destruct (current_blocks st); [| exact Hhead].
           destruct (current_block st); [contradiction | exact Hhead].
    + destruct (current_block st) as [| d ds] eqn:E; cbn [truthy_list];
        intros H; injection H as <-; [exact Hst |].
      unfold state_ok.
      cbn [functions current_blocks current_block current_func tl].
      split; [exact Hm |].
      split.
      { apply Forall_app. split; [exact Hbs |]. constructor; [| constructor].
        repeat split; auto. discriminate. }
      split; [constructor |].
      split; [constructor |].
      destruct (current_func st) as [f |]; [| exact I].
      destruct Hf as [Hex Hhead]. split; [exact Hex |].
      destruct (current_blocks st) as [| b bs]; cbn; exact Hhead.
Qed.

Lemma parse_lines_ok (lines : list string) :
  forall st st',
    (forall line, In line lines -> In line L) ->
    state_ok st -> parse_lines st lines = Ok st' -> state_ok st'.
Proof.
  induction lines as [| l lines IH]; intros st st' Hsub Hst; cbn [parse_lines].
  - intros H; injection H as <-. exact Hst.
  - destruct (parse_line st l) as [st1 |] eqn:Hl; cbn [bind]; [| discriminate].
    apply IH.
    + intros; apply Hsub. now right.
    + apply (parse_line_ok st st1 l); auto. apply Hsub. now left.
Qed.

Lemma parse_init_ok : state_ok parse_init.
Proof. repeat split; cbn; constructor. Qed.

End ParserInvariants.

(** Every model [parse_ir] returns is well formed with respect to the lines
    of its input. *)
Lemma parse_ir_model_ok (content : string) (fm : function_model) :
  parse_ir content = Ok fm -> model_ok (Py.split nl content) fm.
Proof.
  unfold parse_ir.
  destruct (parse_lines parse_init (Py.split nl content)) as [st |] eqn:Hp;
    cbn [bind]; [| discriminate].
  intros H; injection H as <-. apply store_current_ok.
  apply (parse_lines_ok (Py.split nl content) (Py.split nl content) parse_init st);
    auto using parse_init_ok.
Qed.

(** ** IR parser: properties of the returned model *)

Section ParserModel.

(** The model holds nothing but lines of the input, each a
    function-definition line or an indented line that is not a comment. *)
Theorem parse_ir_lines_from_input (content : string) (fm : function_model)
  (f : string) (blocks : list (list string)) (bl : list string) (line : string) :
  parse_ir content = Ok fm ->
  In (f, blocks) fm -> In bl blocks -> In line bl ->
  In line (Py.split nl content) /\ kept_line line = true.
Proof.
  intros Hp Hf Hbl Hline.
  destruct (parse_ir_model_ok content fm Hp) as [_ Hall].
  rewrite Forall_forall in Hall. destruct (Hall _ Hf) as (_ & _ & Hblocks & _).
  cbn [snd] in Hblocks. rewrite Forall_forall in Hblocks.
  destruct (Hblocks _ Hbl) as (_ & Hlines & _).
  rewrite Forall_forall in Hlines. exact (Hlines _ Hline).
Qed.

Lemma parse_ir_lines_from_input_witness :
  In "  ret void"
     (Py.split nl ("define void @f() {" ++ nl_str ++ "  ; entry" ++ nl_str
                   ++ "  ret void" ++ nl_str ++ "}"))
  /\ kept_line "  ret void" = true.
Proof.
  apply (parse_ir_lines_from_input
           ("define void @f() {" ++ nl_str ++ "  ; entry" ++ nl_str
            ++ "  ret void" ++ nl_str ++ "}")
           [("f", [["define void @f() {"; "  ret void"]])]
           "f" [["define void @f() {"; "  ret void"]]
           ["define void @f() {"; "  ret void"] "  ret void");
    [reflexivity | cbn; auto | cbn; auto | cbn; auto].
Defined.

(** The function names of the model are pairwise distinct, never empty, and
    each is the name extracted from a function-definition line of the
    input. *)
Theorem parse_ir_function_names (content : string) (fm : function_model) :
  parse_ir content = Ok fm ->
  NoDup (dict_keys fm)
  /\ forall f, In f (dict_keys fm) ->
       f <> EmptyString
       /\ exists d, In d (Py.split nl content)
                    /\ startswith d "define" = true
                    /\ function_name d = Ok f.
Proof.
  intros Hp. destruct (parse_ir_model_ok content fm Hp) as [Hnd Hall].
  split; [exact Hnd |]. intros f Hf.
  unfold dict_keys in Hf. apply in_map_iff in Hf as ([f' blocks] & <- & Hin).
  rewrite Forall_forall in Hall. destruct (Hall _ Hin) as (Hne & Hd & _).
  split; [exact Hne | exact Hd].
Qed.

Lemma parse_ir_function_names_witness :
  NoDup (dict_keys [("g", [["define void @g() {"]])]).
Proof.
  apply (parse_ir_function_names
           ("define void @() {" ++ nl_str ++ "}" ++ nl_str
            ++ "define void @g() {" ++ nl_str ++ "}")
           [("g", [["define void @g() {"]])]).
  reflexivity.
Defined.

(** No block of the model is empty, and the first block of a function, when
    it has one, opens with a function-definition line that yields the name
    the function is stored under. *)
Theorem parse_ir_blocks_shape (content : string) (fm : function_model)
  (f : string) (blocks : list (list string)) :
  parse_ir content = Ok fm ->
  In (f, blocks) fm ->
  (forall bl, In bl blocks -> bl <> [])
  /\ (forall bl rest, blocks = bl :: rest ->
        exists d others, bl = d :: others
                         /\ startswith d "define" = true
                         /\ function_name d = Ok f).
Proof.
  intros Hp Hf. destruct (parse_ir_model_ok content fm Hp) as [_ Hall].
  rewrite Forall_forall in Hall.
  destruct (Hall _ Hf) as (_ & _ & Hblocks & Hhead). cbn [fst snd] in *.
  split.
  - intros bl Hbl. rewrite Forall_forall in Hblocks.
    now destruct (Hblocks _ Hbl).
  - intros bl rest ->. cbn in Hhead. destruct bl as [| d others];
      [contradiction |].
    destruct Hhead as (_ & Hd & Hn). now exists d, others.
Qed.

Lemma parse_ir_blocks_shape_witness :
  ["  %1 = alloca i32"; "  ret void"] <> []
  /\ exists d others,
       ["define void @f() {"] = d :: others
       /\ startswith d "define" = true
       /\ function_name d = Ok "f".
Proof.
  destruct (parse_ir_blocks_shape
              ("define void @f() {" ++ nl_str ++ "  %1 = alloca i32" ++ nl_str
               ++ "  ret void" ++ nl_str ++ "}")
              [("f", [["define void @f() {"];
                      ["  %1 = alloca i32"; "  ret void"]])] "f"
              [["define void @f() {"]; ["  %1 = alloca i32"; "  ret void"]])
    as [Hne Hhead]; [reflexivity | cbn; auto |].
  split; [apply Hne; cbn; auto | eapply Hhead; reflexivity].
Defined.

(** Inside a block, only the first line can be a function-definition line
    or the start of a new value: every later line is indented, is not a
    comment, and fails the new-block test. *)
Theorem parse_ir_block_followers (content : string) (fm : function_model)
  (f : string) (blocks : list (list string)) (first : string)
  (others : list string) :
  parse_ir content = Ok fm ->
  In (f, blocks) fm -> In (first :: others) blocks ->
  forall x, In x others ->
    startswith x "  " = true
    /\ startswith (strip x) ";" = false
    /\ starts_block x = false.
Proof.
  intros Hp Hf Hbl x Hx.
  destruct (parse_ir_model_ok content fm Hp) as [_ Hall].
  rewrite Forall_forall in Hall. destruct (Hall _ Hf) as (_ & _ & Hblocks & _).
  cbn [snd] in Hblocks. rewrite Forall_forall in Hblocks.
  destruct (Hblocks _ Hbl) as (_ & _ & Hfol). cbn [tl] in Hfol.
  rewrite Forall_forall in Hfol. exact (Hfol _ Hx).
Qed.

Lemma parse_ir_block_followers_witness :
  startswith "  ret void" "  " = true
  /\ startswith (strip "  ret void") ";" = false
  /\ starts_block "  ret void" = false.
Proof.
  apply (parse_ir_block_followers
           ("define void @f() {" ++ nl_str ++ "  %1 = alloca i32" ++ nl_str
            ++ "  ret void" ++ nl_str ++ "}")
           [("f", [["define void @f() {"];
                   ["  %1 = alloca i32"; "  ret void"]])] "f"
           [["define void @f() {"]; ["  %1 = alloca i32"; "  ret void"]]
           "  %1 = alloca i32" ["  ret void"]);
    [reflexivity | cbn; auto | cbn; auto | cbn; auto].
Defined.

Lemma parse_line_comment (st : parse_state) (line : string) :
  is_indented line = true -> is_comment line = true ->
  parse_line st line = Ok st.
Proof.
  intros Hi Hc. unfold parse_line.
  pose proof (indented_not_define _ Hi) as Hd.
  unfold is_define, is_indented, is_comment in *. now rewrite Hd, Hi, Hc.
Qed.

Lemma parse_lines_without_comments (lines : list string) :
  forall st,
    parse_lines st
      (filter (fun l => negb (is_indented l && is_comment l)) lines)
    = parse_lines st lines.
Proof.
  induction lines as [| l lines IH]; intros st; cbn [filter parse_lines];
    [reflexivity |].
  destruct (is_indented l) eqn:Hi; [destruct (is_comment l) eqn:Hc |];
    cbn [andb negb parse_lines].
  - rewrite (parse_line_comment st l Hi Hc). cbn [bind]. apply IH.
  - destruct (parse_line st l); cbn [bind]; [apply IH | reflexivity].
  - destruct (parse_line st l); cbn [bind]; [apply IH | reflexivity].
Qed.

(** Indented comment lines have no influence: a text that differs from
    another only by such lines parses to the same result. *)
Theorem parse_ir_ignores_comments (content content' : string) :
  Py.split nl content'
  = filter (fun l => negb (startswith l "  " && startswith (strip l) ";"))
           (Py.split nl content) ->
  parse_ir content' = parse_ir content.
Proof.
  intros H. unfold parse_ir. rewrite H.
  now rewrite (parse_lines_without_comments (Py.split nl content)).
Qed.

Lemma parse_ir_ignores_comments_witness :
  parse_ir ("define void @f() {" ++ nl_str ++ "  ret void" ++ nl_str ++ "}")
  = parse_ir ("define void @f() {" ++ nl_str ++ "  ; entry" ++ nl_str
              ++ "  ret void" ++ nl_str ++ "}").
Proof.
  apply parse_ir_ignores_comments. reflexivity.
Defined.

Lemma parse_lines_raise_inv (lines : list string) :
  forall st e,
    parse_lines st lines = Raise e ->
    exists line, In line lines /\ is_define line = true
                 /\ contains_char "@" line = false.
Proof.
  induction lines as [| l lines IH]; intros st e; cbn [parse_lines];
    [discriminate |].
  destruct (parse_line st l) as [st1 |] eqn:Hl; cbn [bind].
  - intros H. destruct (IH _ _ H) as (line & Hin & Hd & Hat).
    exists line. split; [now right | auto].
  - intros _. exists l. split; [now left |].
    destruct (is_define l) eqn:Hd.
    + split; [reflexivity |].
      destruct (contains_char "@" l) eqn:Hat; [| reflexivity].
      destruct (function_name_with_at l Hat) as (name & Hn).
      unfold parse_line in Hl. unfold is_define in Hd.
      rewrite Hd, Hn in Hl. discriminate Hl.
    + destruct (parse_line_not_define st l Hd) as (st1 & Hl' & _). congruence.
Qed.

(** [parse_ir] raises exactly when some line of the text begins with
    [define] and has no ['@']; the exception is then [IndexError]. *)
Theorem parse_ir_raises_iff (content : string) :
  (exists e, parse_ir content = Raise e)
  <-> exists line, In line (Py.split nl content)
                   /\ startswith line "define" = true
                   /\ contains_char "@" line = false.
Proof.
  split.
  - intros [e H]. unfold parse_ir in H.
    destruct (parse_lines parse_init (Py.split nl content)) as [st | e'] eqn:Hp;
      cbn [bind] in H; [discriminate |].
    exact (parse_lines_raise_inv _ _ _ Hp).
  - intros (line & Hin & Hd & Hat). exists IndexError. unfold parse_ir.
    now rewrite (parse_lines_raises _ parse_init _ Hin Hd Hat).
Qed.

Lemma split_app_sep (sep : ascii) (s t : string) :
  contains_char sep s = false ->
  Py.split sep (s ++ String sep t) = s :: Py.split sep t.
Proof.
  induction s as [| c s IH]; cbn; intros H.
  - now rewrite Ascii.eqb_refl.
  - apply orb_false_iff in H as [Hc Hs]. rewrite Hc, (IH Hs). reflexivity.
Qed.

Lemma hd_split_app (sep : ascii) (s t : string) :
  contains_char sep s = false ->
  hd EmptyString (Py.split sep (s ++ t))
  = (s ++ hd EmptyString (Py.split sep t))%string.
Proof.
  induction s as [| c s IH]; cbn; intros H; [reflexivity |].
  apply orb_false_iff in H as [Hc Hs]. rewrite Hc.
  specialize (IH Hs). pose proof (split_not_nil sep (s ++ t)) as Hn.
  destruct (Py.split sep (s ++ t)) as [| h rest]; [contradiction |].
  cbn in *. now rewrite IH.
Qed.

(** The name extracted from a function-definition line is the text between
    the first ['@'] and the first ['('] that follows it. *)
Theorem function_name_extracts (before_at name rest : string) :
  contains_char "@" before_at = false ->
  contains_char "@" name = false ->
  contains_char "(" name = false ->
  function_name (before_at ++ "@" ++ name ++ "(" ++ rest) = Ok name.
Proof.
  intros Hpre Hat Hpar. unfold function_name.
  change (before_at ++ "@" ++ name ++ "(" ++ rest)%string
    with (before_at ++ String "@" (name ++ String "(" rest))%string.
  rewrite (split_app_sep _ _ _ Hpre).
  pose proof (split_not_nil "@" (name ++ String "(" rest)) as Hn.
  pose proof (hd_split_app "@" name (String "(" rest) Hat) as Hh.
  destruct (Py.split "@" (name ++ String "(" rest)) as [| h others];
    [contradiction |].
  cbn [hd] in Hh. subst h. cbn [Py.index nth_error bind].
  assert (Hu : exists u, hd EmptyString (Py.split "@" (String "(" rest))
                         = String "(" u).
  { cbn. pose proof (split_not_nil "@" rest) as Hr.
    destruct (Py.split "@" rest) as [| u us]; [contradiction |].
    now exists u. }
  destruct Hu as [u ->]. rewrite (split_app_sep _ _ _ Hpar). reflexivity.
Qed.

Lemma function_name_extracts_witness :
  function_name ("define i32 " ++ "@" ++ "main" ++ "(" ++ "i32 %argc) {")
  = Ok "main".
Proof.
  apply (function_name_extracts "define i32 " "main" "i32 %argc) {");
    reflexivity.
Defined.

End ParserModel.

(** ** Structural differ: what is reported and what is not *)

Section DifferReport.

Lemma dict_mem_keys {V : Type} (d : list (string * V)) (f : string) :
  In f (dict_keys d) <-> dict_mem String.eqb d f = true.
Proof.
  unfold dict_mem. induction d as [| [k v] d IH]; cbn.
  - split; [intros [] | discriminate].
  - destruct (String.eqb_spec k f) as [-> | Hne].
    + split; auto.
    + rewrite <- IH. split; [intros [H | H]; [contradiction | exact H] | auto].
Qed.

Lemma key_union_spec (B A : function_model) (f : string) :
  In f (key_union B A)
  <-> dict_mem String.eqb B f = true \/ dict_mem String.eqb A f = true.
Proof.
  unfold key_union. rewrite nodup_In, in_app_iff, !dict_mem_keys. reflexivity.
Qed.

Lemma diff_function_cases (B A : function_model) (acc : changes) (g : string) :
  diff_function B A acc g
  = match dict_get String.eqb B g, dict_get String.eqb A g with
    | None, _ =>
        mkChanges (added_functions acc ++ [g]) (removed_functions acc)
                  (modified_functions acc) (instruction_changes acc)
    | Some _, None =>
        mkChanges (added_functions acc) (removed_functions acc ++ [g])
                  (modified_functions acc) (instruction_changes acc)
    | Some bb, Some ab =>
        mkChanges (added_functions acc) (removed_functions acc)
                  (dict_set String.eqb (modified_functions acc) g
                            (_compare_function bb ab))
                  (instruction_changes acc)
    end.
Proof.
  unfold diff_function.
  destruct (dict_get String.eqb B g); [| reflexivity].
  destruct (dict_get String.eqb A g); reflexivity.
Qed.

(** The loop of [structural_diff], for any order of iteration. *)
Lemma diff_fold_lists (B A : function_model) (order : list string) :
  forall acc,
    let r := fold_left (diff_function B A) order acc in
    added_functions r
    = added_functions acc
      ++ filter (fun f => negb (dict_mem String.eqb B f)) order
    /\ removed_functions r
       = removed_functions acc
         ++ filter (fun f => dict_mem String.eqb B f
                             && negb (dict_mem String.eqb A f)) order
    /\ instruction_changes r = instruction_changes acc.
Proof.
  induction order as [| g order IH]; intros acc; cbn [fold_left filter].
  - cbv zeta. now rewrite !app_nil_r.
  - cbv zeta in *. destruct (IH (diff_function B A acc g)) as (Ha & Hr & Hi).
    rewrite Ha, Hr, Hi, diff_function_cases. unfold dict_mem.
    destruct (dict_get String.eqb B g); [destruct (dict_get String.eqb A g) |];
      cbn; rewrite <- ?app_assoc; auto.
Qed.

Lemma diff_fold_modified (B A : function_model) (order : list string) (f : string) :
  forall acc,
    dict_get String.eqb
      (modified_functions (fold_left (diff_function B A) order acc)) f
    = match dict_get String.eqb B f, dict_get String.eqb A f with
      | Some bb, Some ab =>
          if existsb (String.eqb f) order
          then Some (_compare_function bb ab)
          else dict_get String.eqb (modified_functions acc) f
      | _, _ => dict_get String.eqb (modified_functions acc) f
      end.
Proof.
  induction order as [| g order IH]; intros acc; cbn [fold_left existsb].
  - destruct (dict_get String.eqb B f), (dict_get String.eqb A f); reflexivity.
  - rewrite IH, diff_function_cases.
    destruct (String.eqb_spec f g) as [<- | Hne].
    + destruct (dict_get String.eqb B f) as [bb |];
        [destruct (dict_get String.eqb A f) as [ab |] |]; cbn; try reflexivity.
      rewrite dict_get_set_same. now destruct (existsb _ order).
    + assert (Hset : forall v,
                 dict_get String.eqb
                   (dict_set String.eqb (modified_functions acc) g v) f
                 = dict_get String.eqb (modified_functions acc) f)
        by (intros; apply dict_get_set_other; congruence).
      destruct (dict_get String.eqb B g) as [bg |];
        [destruct (dict_get String.eqb A g) as [ag |] |];
        destruct (dict_get String.eqb B f) as [bb |];
        try destruct (dict_get String.eqb A f) as [ab |];
        cbn; rewrite ?Hset; reflexivity.
Qed.

Lemma structural_diff_added_removed (B A : function_model) :
  added_functions (structural_diff B A)
  = filter (fun f => negb (dict_mem String.eqb B f)) (key_union B A)
  /\ removed_functions (structural_diff B A)
     = filter (fun f => dict_mem String.eqb B f
                        && negb (dict_mem String.eqb A f)) (key_union B A)
  /\ instruction_changes (structural_diff B A)
     = [("added", []); ("removed", []); ("modified", [])].
Proof.
  unfold structural_diff, structural_diff_in.
  destruct (diff_fold_lists B A (key_union B A) empty_changes) as (Ha & Hr & Hi).
  cbv zeta in Ha, Hr, Hi. rewrite Ha, Hr, Hi. repeat split.
Qed.

Lemma structural_diff_removed_in (B A : function_model) (f : string) :
  In f (removed_functions (structural_diff B A))
  <-> dict_mem String.eqb B f = true /\ dict_mem String.eqb A f = false.
Proof.
  destruct (structural_diff_added_removed B A) as (_ & Hr & _). rewrite Hr.
  rewrite filter_In, key_union_spec, andb_true_iff, negb_true_iff. tauto.
Qed.

(** What [structural_diff] reports: the names found only in [after_ir] as
    added, the names found only in [before_ir] as removed, every name found
    in both under [modified_functions] with the comparison of the two block
    lists, and nothing at all under [instruction_changes]. *)
Theorem structural_diff_report (before_ir after_ir : function_model) :
  let r := structural_diff before_ir after_ir in
  (forall f, In f (added_functions r)
             <-> dict_mem String.eqb before_ir f = false
                 /\ dict_mem String.eqb after_ir f = true)
  /\ (forall f, In f (removed_functions r)
                <-> dict_mem String.eqb before_ir f = true
                    /\ dict_mem String.eqb after_ir f = false)
  /\ (forall f, dict_get String.eqb (modified_functions r) f
                = match dict_get String.eqb before_ir f,
                        dict_get String.eqb after_ir f with
                  | Some bb, Some ab => Some (_compare_function bb ab)
                  | _, _ => None
                  end)
  /\ instruction_changes r = [("added", []); ("removed", []); ("modified", [])].
Proof.
  cbv zeta. unfold structural_diff, structural_diff_in.
  destruct (diff_fold_lists before_ir after_ir (key_union before_ir after_ir)
              empty_changes) as (Ha & Hr & Hi).
  cbv zeta in Ha, Hr, Hi. rewrite Ha, Hr, Hi. cbn [empty_changes added_functions
    removed_functions instruction_changes app].
  rewrite !app_nil_l.
  split; [| split; [| split; [| reflexivity]]].
  - intros f. rewrite filter_In, key_union_spec, negb_true_iff.
    split; [intros [[H | H] Hb]; [congruence | auto] | intros [Hb Ha']; auto].
  - intros f. rewrite filter_In, key_union_spec, andb_true_iff, negb_true_iff.
    tauto.
  - intros f. rewrite diff_fold_modified. cbn [empty_changes modified_functions dict_get].
    destruct (dict_get String.eqb before_ir f) as [bb |] eqn:Eb; [| reflexivity].
    destruct (dict_get String.eqb after_ir f) as [ab |] eqn:Ea; [| reflexivity].
    assert (Hin : In f (key_union before_ir after_ir)).
    { apply key_union_spec. left. unfold dict_mem. now rewrite Eb. }
    assert (Hex : existsb (String.eqb f) (key_union before_ir after_ir) = true).
    { apply existsb_exists. exists f. split; [exact Hin | apply String.eqb_refl]. }
    now rewrite Hex.
Qed.

Lemma dict_get_set_nat {V : Type} (d : list (nat * V)) (k k' : nat) (v : V) :
  dict_get Nat.eqb (dict_set Nat.eqb d k v) k'
  = if k =? k' then Some v else dict_get Nat.eqb d k'.
Proof.
  induction d as [| [k0 v0] d IH]; cbn [dict_set dict_get].
  - reflexivity.
  - destruct (Nat.eqb_spec k0 k) as [-> | Hne]; cbn [dict_get].
    + now destruct (k =? k').
    + destruct (Nat.eqb_spec k0 k') as [-> | Hne'].
      * destruct (Nat.eqb_spec k k'); [congruence | reflexivity].
      * exact IH.
Qed.

Lemma nth_error_combine {X Y : Type} (xs : list X) (ys : list Y) (i : nat) :
  nth_error (combine xs ys) i
  = match nth_error xs i, nth_error ys i with
    | Some x, Some y => Some (x, y)
    | _, _ => None
    end.
Proof.
  revert ys i; induction xs as [| x xs IH]; intros [| y ys] [| i]; cbn;
    try reflexivity.
  - now destruct (nth_error xs i).
  - apply IH.
Qed.

Lemma compare_function_loop_get (pairs : list (list string * list string)) :
  forall (i : nat) (acc : list (nat * block_changes)) (k : nat),
    dict_get Nat.eqb (compare_function_loop i pairs acc) k
    = match (if i <=? k then nth_error pairs (k - i) else None) with
      | Some (bb, ab) =>
          if list_eqb bb ab then dict_get Nat.eqb acc k
          else Some (_compare_instructions bb ab)
      | None => dict_get Nat.eqb acc k
      end.
Proof.
  induction pairs as [| [bb ab] pairs IH]; intros i acc k;
    cbn [compare_function_loop].
  - destruct (i <=? k); [now destruct (k - i) | reflexivity].
  - assert (Hstep : forall acc',
               (forall k', k' <> i ->
                           dict_get Nat.eqb acc' k' = dict_get Nat.eqb acc k') ->
               dict_get Nat.eqb acc' i
               = (if list_eqb bb ab then dict_get Nat.eqb acc i
                  else Some (_compare_instructions bb ab)) ->
               dict_get Nat.eqb (compare_function_loop (S i) pairs acc') k
               = match (if i <=? k then nth_error ((bb, ab) :: pairs) (k - i)
                        else None) with
                 | Some (bb0, ab0) =>
                     if list_eqb bb0 ab0 then dict_get Nat.eqb acc k
                     else Some (_compare_instructions bb0 ab0)
                 | None => dict_get Nat.eqb acc k
                 end).
    { intros acc' Hother Hsame. rewrite IH.
      destruct (Nat.leb_spec (S i) k) as [Hlt | Hge].
      - destruct (Nat.leb_spec i k); [| lia].
        replace (k - i) with (S (k - S i)) by lia. cbn [nth_error].
        rewrite Hother by lia. reflexivity.
      - destruct (Nat.leb_spec i k) as [Hle | Hlt].
        + assert (k = i) by lia. subst k. rewrite Nat.sub_diag. cbn [nth_error].
          exact Hsame.
        + apply Hother. lia. }
    destruct (list_eqb bb ab) eqn:E; cbn [negb].
    + apply Hstep; [reflexivity |]. reflexivity.
    + cbn. apply Hstep.
      * intros k' Hk'. rewrite dict_get_set_nat.
        destruct (Nat.eqb_spec i k'); [congruence | reflexivity].
      * now rewrite dict_get_set_nat, Nat.eqb_refl.
Qed.

(** [_compare_function] has an entry at index [i] exactly when both block
    lists have a block at [i] and the two blocks differ; the entry is the
    positional comparison of the two. *)
Theorem compare_function_entry (before_blocks after_blocks : list (list string))
  (i : nat) :
  dict_get Nat.eqb (modified_blocks (_compare_function before_blocks after_blocks)) i
  = match nth_error before_blocks i, nth_error after_blocks i with
    | Some bb, Some ab =>
        if list_eqb bb ab then None else Some (_compare_instructions bb ab)
    | _, _ => None
    end.
Proof.
  unfold _compare_function. cbn [modified_blocks].
  rewrite compare_function_loop_get. cbn [Nat.leb]. rewrite Nat.sub_0_r.
  rewrite nth_error_combine. cbn [dict_get].
  destruct (nth_error before_blocks i); [| reflexivity].
  destruct (nth_error after_blocks i); reflexivity.
Qed.

Lemma combine_app_same_l {X : Type} (xs extra : list X) :
  combine xs (xs ++ extra) = combine xs xs.
Proof. induction xs as [| x xs IH]; cbn; [reflexivity | now rewrite IH]. Qed.

Lemma combine_app_same_r {X : Type} (xs extra : list X) :
  combine (xs ++ extra) xs = combine xs xs.
Proof.
  induction xs as [| x xs IH]; cbn; [now destruct extra | now rewrite IH].
Qed.

(** Blocks added at the end of a function, or removed from its end, go
    unreported: the comparison stops at the shorter list. *)
Theorem trailing_blocks_unreported (blocks extra : list (list string)) :
  _compare_function blocks (blocks ++ extra) = mkFunctionChanges [] [] []
  /\ _compare_function (blocks ++ extra) blocks = mkFunctionChanges [] [] [].
Proof.
  unfold _compare_function.
  rewrite combine_app_same_l, combine_app_same_r.
  now rewrite compare_function_loop_same.
Qed.

Lemma compare_instructions_loop_same (insts : list string) (acc : list inst_pair) :
  compare_instructions_loop (combine insts insts) acc = acc.
Proof.
  revert acc; induction insts as [| x insts IH]; intros acc; cbn;
    [reflexivity |].
  rewrite String.eqb_refl. cbn. apply IH.
Qed.

Lemma list_eqb_app_false (xs extra : list string) :
  extra <> [] -> list_eqb xs (xs ++ extra) = false.
Proof.
  intros Hne. apply list_eqb_neq. intros H.
  apply (f_equal (@List.length string)) in H. rewrite length_app in H.
  destruct extra; [contradiction | cbn in H; lia].
Qed.

Lemma compare_function_loop_skip (pre : list (list string))
  (rest : list (list string * list string)) :
  forall i acc,
    compare_function_loop i (combine pre pre ++ rest) acc
    = compare_function_loop (i + List.length pre) rest acc.
Proof.
  induction pre as [| p pre IH]; intros i acc.
  - cbn. now rewrite Nat.add_0_r.
  - change (combine (p :: pre) (p :: pre) ++ rest)
      with ((p, p) :: (combine pre pre ++ rest)).
    cbn [compare_function_loop]. rewrite list_eqb_refl. cbn [negb].
    rewrite IH. cbn [List.length]. f_equal. lia.
Qed.

Lemma combine_app_cons {X : Type} (pre post xs ys : list X) (x y : X) :
  combine (pre ++ x :: xs) (pre ++ y :: ys)
  = combine pre pre ++ (x, y) :: combine xs ys.
Proof. induction pre as [| p pre IH]; cbn; [reflexivity | now rewrite IH]. Qed.

Lemma compare_instructions_grown (insts extra : list string) :
  _compare_instructions insts (insts ++ extra) = mkBlockChanges [] [] [].
Proof.
  unfold _compare_instructions.
  now rewrite combine_app_same_l, compare_instructions_loop_same.
Qed.

(** A block that only gained instructions at its end is recorded as
    modified, but with an empty list of changes: the lines are paired up to
    the length of the shorter block and all those pairs agree. *)
Theorem grown_block_recorded_empty (pre post : list (list string))
  (block extra : list string) :
  extra <> [] ->
  _compare_function (pre ++ block :: post) (pre ++ (block ++ extra) :: post)
  = mkFunctionChanges [] []
      [(List.length pre, mkBlockChanges [] [] [])].
Proof.
  intros Hne. unfold _compare_function.
  rewrite (combine_app_cons pre post), compare_function_loop_skip.
  cbn [compare_function_loop Nat.add].
  rewrite (list_eqb_app_false _ _ Hne). cbn [negb].
  rewrite compare_instructions_grown.
  cbn [len_block_changes truthy_len Nat.eqb negb dict_set].
  now rewrite compare_function_loop_same.
Qed.

Lemma grown_block_recorded_empty_witness :
  _compare_function [["define void @f() {"]; ["  %1 = add i32 1, 2"]]
                    [["define void @f() {"];
                     ["  %1 = add i32 1, 2"; "  ret void"]]
  = mkFunctionChanges [] [] [(1, mkBlockChanges [] [] [])].
Proof.
  apply (grown_block_recorded_empty [["define void @f() {"]] []
           ["  %1 = add i32 1, 2"] ["  ret void"]).
  discriminate.
Defined.

(** Swapping the two blocks swaps the two sides of every recorded pair. *)
Theorem compare_instructions_swap (before_insts after_insts : list string) :
  modified (_compare_instructions after_insts before_insts)
  = map (fun p => mkPair (after p) (before p))
        (modified (_compare_instructions before_insts after_insts)).
Proof.
  rewrite !compare_instructions_zip.
  revert after_insts; induction before_insts as [| x xs IH];
    intros [| y ys]; cbn; try reflexivity.
  rewrite (String.eqb_sym y x). destruct (String.eqb x y); cbn;
    now rewrite IH.
Qed.

(** The pipeline of [main]: the diff of two parsed models is rated ["high"]
    when some function of [before_ir] is missing from [after_ir] and
    ["low"] otherwise, never ["medium"]; the only entries emitted are the
    function addition and the function removal. *)
Theorem diff_then_analyze (before_ir after_ir : function_model) :
  let a := analyze_changes (structural_diff before_ir after_ir) in
  performance_impact a
  = (if existsb (fun f => negb (dict_mem String.eqb after_ir f))
                (dict_keys before_ir)
     then "high" else "low")
  /\ forall t, In t (key_transformations a) ->
               type t = "function_addition" \/ type t = "function_removal".
Proof.
  cbv zeta.
  pose proof (structural_diff_removed_in before_ir after_ir) as Hrem.
  destruct (structural_diff_added_removed before_ir after_ir) as (_ & _ & Hic).
  split.
  - rewrite (performance_impact_of_buckets _ [] [] [] Hic). cbn [truthy_list].
    destruct (removed_functions (structural_diff before_ir after_ir))
      as [| g gs] eqn:E; cbn [truthy_list].
    + destruct (existsb _ (dict_keys before_ir)) eqn:Ex; [| reflexivity].
      apply existsb_exists in Ex as (f & Hin & Hf).
      apply negb_true_iff in Hf. apply dict_mem_keys in Hin.
      assert (H : In f []) by (apply Hrem; auto). destruct H.
    + assert (Hg : In g (g :: gs)) by now left.
      apply Hrem in Hg as [Hb Ha].
      assert (Ex : existsb (fun f => negb (dict_mem String.eqb after_ir f))
                           (dict_keys before_ir) = true).
      { apply existsb_exists. exists g. split; [now apply dict_mem_keys |].
        now rewrite Ha. }
      now rewrite Ex.
  - unfold analyze_changes. rewrite Hic. cbn [key_transformations
      instruction_transformations truthy_list app].
    rewrite app_nil_r. intros t Ht.
    destruct (truthy_list (added_functions _)),
             (truthy_list (removed_functions _)); cbn in Ht;
      intuition (subst; auto).
Qed.

End DifferReport.

(** ** Change analyzer: the rating as a function of the diff *)

Section AnalyzerRule.

(** The dict [instruction_changes] has a non-empty list under the key [k]. *)
Definition has_bucket (k : string) (items : list (string * list inst_change))
  : bool :=
  existsb (fun kv => String.eqb (fst kv) k && truthy_list (snd kv)) items.

Lemma any_type_in_instruction (items : list (string * list inst_change)) :
  any_type_in ["instruction_removal"; "function_removal"]
              (instruction_transformations items)
  = has_bucket "removal" items
  /\ any_type_in ["instruction_modified"; "function_modified"]
                 (instruction_transformations items)
     = has_bucket "modified" items.
Proof.
  unfold any_type_in, has_bucket.
  set (high := fun t : transformation =>
         existsb (String.eqb (type t))
                 ["instruction_removal"; "function_removal"]).
  set (medium := fun t : transformation =>
         existsb (String.eqb (type t))
                 ["instruction_modified"; "function_modified"]).
  set (named := fun (k : string) (kv : string * list inst_change) =>
         String.eqb (fst kv) k && truthy_list (snd kv)).
  change (existsb high (instruction_transformations items)
          = existsb (named "removal") items
          /\ existsb medium (instruction_transformations items)
             = existsb (named "modified") items).
  induction items as [| [k insts] items [IH1 IH2]]; [split; reflexivity |].
  cbn [instruction_transformations existsb].
  destruct (truthy_list insts) eqn:Ht; cbn [existsb].
  - rewrite IH1, IH2. unfold high, medium, named. cbn. rewrite Ht.
    rewrite !orb_false_r, !andb_true_r. split; reflexivity.
  - rewrite IH1, IH2. unfold named. cbn [fst snd]. rewrite Ht.
    rewrite !andb_false_r. split; reflexivity.
Qed.

(** The rating [analyze_changes] gives, for any diff: ["high"] when a
    function was removed or the bucket named ["removal"] is not empty,
    else ["medium"] when the bucket named ["modified"] is not empty, else
    ["low"].  Added functions, added instructions and the bucket named
    ["removed"] never change the rating. *)
Theorem performance_impact_rule (c : changes) :
  performance_impact (analyze_changes c)
  = if truthy_list (removed_functions c)
       || has_bucket "removal" (instruction_changes c)
    then "high"
    else if has_bucket "modified" (instruction_changes c) then "medium"
    else "low".
Proof.
  unfold analyze_changes. cbn [performance_impact].
  destruct (any_type_in_instruction (instruction_changes c)) as [H1 H2].
  rewrite !any_type_in_app, H1, H2.
  destruct (truthy_list (added_functions c)),
           (truthy_list (removed_functions c)); cbn; reflexivity.
Qed.

(** Every entry of [key_transformations] counts at least one change. *)
Theorem key_transformations_counts_positive (c : changes) (t : transformation) :
  In t (key_transformations (analyze_changes c)) -> 1 <= count t.
Proof.
  unfold analyze_changes. cbn [key_transformations]. intros H.
  apply in_app_or in H as [H | H].
  - destruct (added_functions c) as [| x xs], (removed_functions c) as [| y ys];
      cbn in H; intuition (subst; cbn; lia).
  - induction (instruction_changes c) as [| [k insts] items IH];
      cbn in H; [contradiction |].
    destruct insts as [| i insts]; cbn in H; [auto |].
    destruct H as [<- | H]; [cbn; lia | auto].
Qed.

Lemma key_transformations_counts_positive_witness :
  1 <= count (mkTransformation "function_removal" 2 "Removed 2 functions").
Proof.
  apply (key_transformations_counts_positive
           (mkChanges [] ["f"; "g"] []
              [("added", []); ("removed", []); ("modified", [])])).
  cbn. auto.
Defined.

End AnalyzerRule.

(** ** Aligner: rows and columns *)

Section AlignerRows.

Lemma str_length_app (s t : string) :
  String.length (s ++ t) = String.length s + String.length t.
Proof. induction s as [| c s IH]; cbn; [reflexivity | now rewrite IH]. Qed.

Lemma length_spaces (n : nat) : String.length (spaces n) = n.
Proof. induction n as [| n IH]; cbn; [reflexivity | now rewrite IH]. Qed.

Lemma length_ljust (s : string) (w : nat) :
  String.length (ljust s w) = Nat.max (String.length s) w.
Proof. unfold ljust. rewrite str_length_app, length_spaces. lia. Qed.

Lemma length_rstrip_le (s : string) :
  String.length (rstrip s) <= String.length s.
Proof.
  induction s as [| c s IH]; cbn; [lia |].
  destruct (rstrip s); [destruct (isspace c) |]; cbn in *; lia.
Qed.

Lemma max_len_ge (xs : list string) (x : string) :
  In x xs -> String.length x <= max_len xs.
Proof.
  unfold max_len. induction xs as [| y xs IH]; cbn; [intros [] |].
  intros [-> | H]; [lia |]. specialize (IH H). lia.
Qed.

Lemma in_skipn {X : Type} (n : nat) (xs : list X) (x : X) :
  In x (skipn n xs) -> In x xs.
Proof.
  revert xs; induction n as [| n IH]; intros [| y xs]; cbn; auto.
Qed.

(** [_align_lines] returns one row per line of the longer side. *)
Theorem align_lines_row_count (before_lines after_lines : list string) :
  List.length (_align_lines before_lines after_lines)
  = Nat.max (List.length before_lines) (List.length after_lines).
Proof.
  unfold _align_lines. rewrite length_app, length_map, length_combine.
  destruct (Nat.ltb_spec (List.length after_lines) (List.length before_lines)).
  - rewrite length_map, length_skipn. lia.
  - destruct (Nat.ltb_spec (List.length before_lines) (List.length after_lines)).
    + rewrite length_map, length_skipn. lia.
    + cbn. lia.
Qed.

(** In every row the before column is exactly as wide as the longest
    before line, so the separator stands at the same place in all rows. *)
Theorem align_lines_separator_column (before_lines after_lines : list string)
  (row : string) :
  In row (_align_lines before_lines after_lines) ->
  exists column rest,
    row = (column ++ " |" ++ rest)%string
    /\ String.length column = max_len before_lines.
Proof.
  unfold _align_lines. intros H. apply in_app_or in H as [H | H].
  - apply in_map_iff in H as ([b a] & <- & Hin). cbn [fst snd].
    exists (ljust (rstrip b) (max_len before_lines)), (" " ++ rstrip a)%string.
    split; [reflexivity |]. rewrite length_ljust.
    apply in_combine_l in Hin. pose proof (max_len_ge _ _ Hin).
    pose proof (length_rstrip_le b). lia.
  - destruct (List.length after_lines <? List.length before_lines).
    + apply in_map_iff in H as (b & <- & Hin).
      exists (ljust (rstrip b) (max_len before_lines)), EmptyString.
      split; [reflexivity |]. rewrite length_ljust.
      apply in_skipn in Hin. pose proof (max_len_ge _ _ Hin).
      pose proof (length_rstrip_le b). lia.
    + destruct (List.length before_lines <? List.length after_lines);
        [| destruct H].
      apply in_map_iff in H as (a & <- & Hin).
      exists (ljust "" (max_len before_lines)), (" " ++ rstrip a)%string.
      split; [reflexivity |]. rewrite length_ljust. cbn. lia.
Qed.

Lemma align_lines_separator_column_witness :
  exists column rest,
    "  %1 = alloca i32  |" = (column ++ " |" ++ rest)%string
    /\ String.length column
       = max_len ["  %1 = alloca i32" ++ nl_str]%string.
Proof.
  apply (align_lines_separator_column
           ["  %1 = alloca i32" ++ nl_str]%string [] "  %1 = alloca i32  |").
  vm_compute. auto.
Defined.

(** A diff line that is a removed or an added line. *)
Definition signed (line : string) : bool :=
  startswith line "-" || startswith line "+".

(** The removed and the added lines of a run, without their sign. *)
Definition minus_lines (run : list string) : list string :=
  map tail_str (filter (fun l => startswith l "-") run).

Definition plus_lines (run : list string) : list string :=
  map tail_str
      (filter (fun l => negb (startswith l "-") && startswith l "+") run).

Lemma flush_aligned_eq (output before_lines after_lines : list string) :
  flush_aligned output before_lines after_lines
  = output ++ _align_lines before_lines after_lines.
Proof.
  unfold flush_aligned.
  destruct before_lines, after_lines; cbn [truthy_list orb]; try reflexivity.
  cbn. now rewrite app_nil_r.
Qed.

Lemma format_loop_run (run : list string) :
  forall rest output before_lines after_lines,
    Forall (fun l => signed l = true) run ->
    format_loop (run ++ rest) output before_lines after_lines
    = format_loop rest output (before_lines ++ minus_lines run)
                  (after_lines ++ plus_lines run).
Proof.
  unfold minus_lines, plus_lines.
  induction run as [| l run IH]; intros rest output bl al Hrun;
    cbn [app filter map format_loop].
  - now rewrite !app_nil_r.
  - inversion Hrun as [| x xs Hl Hrest]; subst x xs. unfold signed in Hl.
    change ((l :: run) ++ rest) with (l :: (run ++ rest)).
    cbn [format_loop].
    destruct (startswith l "-") eqn:Hm; cbn [negb andb orb] in *.
    + cbn [map]. rewrite IH by exact Hrest. now rewrite <- !app_assoc.
    + rewrite Hl. cbn [map]. rewrite IH by exact Hrest.
      now rewrite <- !app_assoc.
Qed.

Lemma format_loop_output_prefix (section : list string) :
  forall prefix output before_lines after_lines,
    format_loop section (prefix ++ output) before_lines after_lines
    = let '(out, bl, al) :=
        format_loop section output before_lines after_lines in
      (prefix ++ out, bl, al).
Proof.
  induction section as [| l section IH]; intros prefix output bl al;
    cbn [format_loop]; [reflexivity |].
  destruct (startswith l "-"); [apply IH |].
  destruct (startswith l "+"); [apply IH |].
  rewrite !flush_aligned_eq, <- !app_assoc. apply IH.
Qed.

Lemma format_cut_at_context (run rest : list string) (context : string) :
  Forall (fun l => signed l = true) run ->
  signed context = false ->
  _format_side_by_side (run ++ context :: rest)
  = _align_lines (minus_lines run) (plus_lines run)
    ++ context :: _format_side_by_side rest.
Proof.
  intros Hrun Hctx. unfold _format_side_by_side.
  rewrite (format_loop_run run _ _ _ _ Hrun). cbn [app format_loop].
  unfold signed in Hctx. apply orb_false_iff in Hctx as [Hm Hp].
  rewrite Hm, Hp, flush_aligned_eq, !app_nil_l.
  rewrite <- (app_nil_r (_align_lines _ _ ++ [context])).
  rewrite format_loop_output_prefix.
  destruct (format_loop rest [] [] []) as [[out bl] al].
  rewrite !flush_aligned_eq, <- !app_assoc. reflexivity.
Qed.

(** How [_format_side_by_side] cuts a section: a run of removed and added
    lines becomes the aligned rows of its removed lines against its added
    lines, whatever the order in which the two kinds alternate inside the
    run; the unchanged line that ends the run is copied as it is; the rest
    of the section is formatted on its own. *)
Theorem format_side_by_side_run (run rest : list string) (context : string) :
  Forall (fun l => signed l = true) run ->
  signed context = false ->
  _format_side_by_side (run ++ context :: rest)
  = _align_lines (minus_lines run) (plus_lines run)
    ++ context :: _format_side_by_side rest.
Proof. exact (format_cut_at_context run rest context). Qed.

Lemma format_side_by_side_run_witness :
  _format_side_by_side (["-a"; "+x"; "-b"] ++ " c" :: ["+y"])
  = _align_lines ["a"; "b"] ["x"] ++ " c" :: _format_side_by_side ["+y"].
Proof.
  apply (format_side_by_side_run ["-a"; "+x"; "-b"] ["+y"] " c");
    [repeat constructor | reflexivity].
Defined.

(** A section that ends in a run of removed and added lines: the run is
    aligned in the same way. *)
Theorem format_side_by_side_last_run (run : list string) :
  Forall (fun l => signed l = true) run ->
  _format_side_by_side run
  = _align_lines (minus_lines run) (plus_lines run).
Proof.
  intros Hrun. unfold _format_side_by_side.
  rewrite <- (app_nil_r run) at 1.
  rewrite (format_loop_run run _ _ _ _ Hrun). cbn [format_loop].
  now rewrite flush_aligned_eq, !app_nil_l.
Qed.

Lemma format_side_by_side_last_run_witness :
  _format_side_by_side ["+x"; "-a"; "-b"]
  = _align_lines ["a"; "b"] ["x"].
Proof.
  apply (format_side_by_side_last_run ["+x"; "-a"; "-b"]).
  repeat constructor.
Defined.

(** A section of unchanged lines only is returned as it is. *)
Theorem format_side_by_side_context (section : list string) :
  Forall (fun l => signed l = false) section ->
  _format_side_by_side section = section.
Proof.
  induction section as [| l section IH]; intros H; [reflexivity |].
  inversion H as [| x xs Hl Hrest]; subst x xs.
  change (l :: section) with ([] ++ l :: section) at 1.
  rewrite (format_cut_at_context [] section l); [| constructor | exact Hl].
  cbn. now rewrite IH.
Qed.

Lemma format_side_by_side_context_witness :
  _format_side_by_side [" a"; " b"] = [" a"; " b"].
Proof.
  apply format_side_by_side_context. repeat constructor.
Defined.

End AlignerRows.

(** ** Project/app.py: the diff file *)

Section DiffFile.

Lemma startswith_empty (s : string) : startswith s "" = true.
Proof. now destruct s. Qed.

(** The diff written for two identical texts is empty, and a diff that is
    not empty opens with the two file-header lines and the marker of the
    first hunk. *)
Theorem diff_output_cases (before_text after_text : string) :
  ProjectApp.diff_output before_text before_text = ""
  /\ (ProjectApp.diff_output before_text after_text = ""
      \/ startswith (ProjectApp.diff_output before_text after_text)
           ("--- before.ll" ++ nl_str ++ "+++ after.ll" ++ nl_str ++ "@@ -")
         = true).
Proof.
  unfold ProjectApp.diff_output. split.
  - now rewrite unified_diff_same.
  - unfold Difflib.unified_diff.
    destruct (Difflib.get_grouped_opcodes (readlines before_text)
                (readlines after_text) 3) as [| g gs]; [now left |].
    right. cbn [flat_map Difflib.group_lines app ProjectApp.writelines].
    cbn. apply startswith_empty.
Qed.

End DiffFile.

(** ** webapp/app.py: allowed_file *)

Section AllowedFile.

Lemma rsplit_last_none (sep : ascii) (s : string) :
  WebApp.char_in sep s = false -> WebApp.rsplit_last sep s = None.
Proof.
  induction s as [| c s IH]; cbn; [reflexivity |].
  intros H. apply orb_false_iff in H as [Hc Hs]. now rewrite (IH Hs), Hc.
Qed.

Lemma rsplit_last_some (sep : ascii) (s : string) :
  WebApp.char_in sep s = true ->
  exists h t, WebApp.rsplit_last sep s = Some (h, t).
Proof.
  induction s as [| c s IH]; cbn; [discriminate |].
  destruct (WebApp.rsplit_last sep s) as [[h t] |] eqn:E.
  - intros _. eauto.
  - destruct (Ascii.eqb c sep); cbn; [eauto |].
    intros H. destruct (IH H) as (h & t & Hs). discriminate.
Qed.

Lemma rsplit_last_app (sep : ascii) (stem ext : string) :
  WebApp.char_in sep ext = false ->
  WebApp.rsplit_last sep (stem ++ String sep ext) = Some (stem, ext).
Proof.
  intros Hext. induction stem as [| c stem IH]; cbn.
  - now rewrite (rsplit_last_none _ _ Hext), Ascii.eqb_refl.
  - now rewrite IH.
Qed.

Lemma char_in_app (sep : ascii) (s t : string) :
  WebApp.char_in sep (s ++ t) = WebApp.char_in sep s || WebApp.char_in sep t.
Proof.
  induction s as [| c s IH]; cbn; [reflexivity |].
  now rewrite IH, orb_assoc.
Qed.

(** [allowed_file] never raises: the test ['.' in filename] guards the
    index [1] into the result of [rsplit]; a name without a dot is
    refused. *)
Theorem allowed_file_never_raises (filename : string) :
  (exists answer, WebApp.allowed_file filename = Ok answer)
  /\ (WebApp.char_in "." filename = false ->
      WebApp.allowed_file filename = Ok false).
Proof.
  unfold WebApp.allowed_file.
  destruct (WebApp.char_in "." filename) eqn:E.
  - split; [| discriminate].
    destruct (rsplit_last_some _ _ E) as (h & t & Hs).
    unfold WebApp.rsplit1. rewrite Hs. cbn. eauto.
  - split; eauto.
Qed.

(** The answer depends on the text after the last dot alone, compared
    without regard to case with [cpp], [cc] and [cxx]. *)
Theorem allowed_file_by_extension (stem ext : string) :
  WebApp.char_in "." ext = false ->
  WebApp.allowed_file (stem ++ "." ++ ext)
  = Ok (existsb (String.eqb (WebApp.lower ext)) ["cpp"; "cc"; "cxx"]).
Proof.
  intros Hext. unfold WebApp.allowed_file.
  change (stem ++ "." ++ ext)%string with (stem ++ String "." ext)%string.
  rewrite char_in_app. cbn [WebApp.char_in]. rewrite Ascii.eqb_refl.
  cbn [orb]. rewrite orb_true_r.
  unfold WebApp.rsplit1. rewrite (rsplit_last_app _ _ _ Hext). reflexivity.
Qed.

Lemma allowed_file_by_extension_witness :
  WebApp.allowed_file ("archive.tar" ++ "." ++ "CPP") = Ok true.
Proof.
  apply (allowed_file_by_extension "archive.tar" "CPP"). reflexivity.
Defined.

End AllowedFile.

(** ** Structural differ: swapped and identical arguments *)

Section DifferAlgebra.

(** Swapping the two models turns the added functions into the removed
    ones and back. *)
Theorem structural_diff_swap (before_ir after_ir : function_model) (f : string) :
  (In f (added_functions (structural_diff before_ir after_ir))
   <-> In f (removed_functions (structural_diff after_ir before_ir)))
  /\ (In f (removed_functions (structural_diff before_ir after_ir))
      <-> In f (added_functions (structural_diff after_ir before_ir))).
Proof.
  destruct (structural_diff_added_removed before_ir after_ir) as (Ha & Hr & _).
  destruct (structural_diff_added_removed after_ir before_ir) as (Ha' & Hr' & _).
  rewrite Ha, Hr, Ha', Hr'.
  rewrite !filter_In, !key_union_spec, !andb_true_iff, !negb_true_iff.
  destruct (dict_mem String.eqb before_ir f), (dict_mem String.eqb after_ir f);
    intuition congruence.
Qed.

Lemma filter_none {X : Type} (p : X -> bool) (xs : list X) :
  (forall x, In x xs -> p x = false) -> filter p xs = [].
Proof.
  induction xs as [| x xs IH]; cbn; intros H; [reflexivity |].
  rewrite (H x) by now left. apply IH. intros; apply H. now right.
Qed.

(** A model diffed against itself: no function is reported as added or as
    removed, and the analysis of that diff has no entry and the rating
    ["low"] (although every function sits in [modified_functions]). *)
Theorem structural_diff_self_analysis (M : function_model) :
  added_functions (structural_diff M M) = []
  /\ removed_functions (structural_diff M M) = []
  /\ key_transformations (analyze_changes (structural_diff M M)) = []
  /\ performance_impact (analyze_changes (structural_diff M M)) = "low".
Proof.
  destruct (structural_diff_added_removed M M) as (Ha & Hr & Hi).
  assert (Ha0 : added_functions (structural_diff M M) = []).
  { rewrite Ha. apply filter_none. intros f Hf.
    apply key_union_spec in Hf. destruct Hf as [H | H]; now rewrite H. }
  assert (Hr0 : removed_functions (structural_diff M M) = []).
  { rewrite Hr. apply filter_none. intros f Hf.
    destruct (dict_mem String.eqb M f); reflexivity. }
  split; [exact Ha0 |]. split; [exact Hr0 |].
  unfold analyze_changes. rewrite Ha0, Hr0, Hi. split; reflexivity.
Qed.

End DifferAlgebra.
